(** * libhttp: request pipeline, listener acquisition and shutdown coordination

    A shallow embedding of the Go package [libhttp]: the [Service] type with
    its [Filter] method, hsts.go and server.go.  Go functions with effects
    are written in a small state-and-panic monad; the goroutines of
    [Server.Stop], [addShutdownFunc] and [Serve] are modelled by an
    executable step function over an explicit server state, run along
    arbitrary schedules. *)

From Stdlib Require Import ZArith String Ascii DecimalString Lia.
From stdpp Require Import gmap strings list.

Local Open Scope Z_scope.
Local Open Scope string_scope.

(** ** Go's [strconv] and [fmt] as used by the package *)

Module Strconv.

(** The digit loop of [strconv.Atoi]: [ch -= '0'; if ch > 9 { error }]. *)
Fixpoint digits (n : Z) (s : string) : option Z :=
  match s with
  | EmptyString => Some n
  | String ch rest =>
      let d := Z.of_N (N_of_ascii ch) - 48 in
      if ((0 <=? d) && (d <=? 9))%Z then digits (n * 10 + d) rest else None
  end.

Definition is_sign (ch : ascii) : bool :=
  (N_of_ascii ch =? 45)%N || (N_of_ascii ch =? 43)%N.

Definition minInt : Z := - 2 ^ 63.
Definition maxInt : Z := 2 ^ 63 - 1.

(** [strconv.Atoi] on a 64-bit platform: an optional sign, at least one
    decimal digit, nothing else; [None] is a syntax or range error. *)
Definition Atoi (s : string) : option Z :=
  match s with
  | EmptyString => None
  | String s0 rest =>
      let body := if is_sign s0 then rest else s in
      match body with
      | EmptyString => None
      | _ =>
          match digits 0 body with
          | None => None
          | Some n =>
              let v := if (N_of_ascii s0 =? 45)%N then - n else n in
              if ((minInt <=? v) && (v <=? maxInt))%Z then Some v else None
          end
      end
  end.

(** The verb [%d] of [fmt.Sprintf]. *)
Definition fmt_d (n : Z) : string := NilZero.string_of_int (Z.to_int n).

End Strconv.

(** ** Services and filters (the Service type, hsts.go) *)

Module Pipeline.

(** A Go call either returns or panics. *)
Inductive outcome (A : Type) : Type :=
| Ret (a : A)
| Panic (reason : string).
Arguments Ret {A} a.
Arguments Panic {A} reason.

Section Pipeline.
(** [World] is whatever a handler can observe and change outside its
    arguments; [ReqData] and [RspData] are the parts of a request and of
    a response the package never looks into; [ServerRef] is [*Server]. *)
Context {World ReqData RspData ServerRef : Type}.

Definition Eff (A : Type) : Type := World -> outcome A * World.

Definition ret {A} (a : A) : Eff A := fun w => (Ret a, w).

Definition bind {A B} (m : Eff A) (k : A -> Eff B) : Eff B :=
  fun w =>
    match m w with
    | (Ret a, w') => k a w'
    | (Panic r, w') => (Panic r, w')
    end.

Definition panic {A} (reason : string) : Eff A := fun w => (Panic reason, w).

(** [http.Header], that is [map[string][]string]. *)
Definition Header : Type := gmap string (list string).

(** [Request] and [Response] are declared in files that are not among these
    sources. Of a request the package sets the field [server]; of a response
    it reaches [Header], a Go map, which is nil ([None]) in a response that
    was built without one, such as the zero [Response]. *)
Record Request : Type := mkRequest {
  req_data : ReqData;
  server : option ServerRef
}.

Record Response : Type := mkResponse {
  rsp_header : option Header;
  rsp_data : RspData
}.

(** [type Service func(req Request) Response] *)
Definition Service : Type := Request -> Eff Response.

(** The filter type taken by [Service.Filter]. *)
Definition Filter : Type := Request -> Service -> Eff Response.

(** [func (svc Service) Filter(f Filter) Service] *)
Definition Service_Filter (svc : Service) (f : Filter) : Service :=
  fun req => f req svc.

(** A stage that works on the request, delegates downstream and then
    works on the response. *)
Definition stage (pre : Request -> Eff Request)
    (post : Response -> Eff Response) : Filter :=
  fun req svc =>
    bind (pre req) (fun req' =>
    bind (svc req') (fun rsp =>
    post rsp)).

End Pipeline.

Notation "'do' x <- m ; k" := (bind m (fun x => k))
  (at level 10, x name, m at level 100, k at level 200).

(** [validHeaderFieldByte] of net/textproto: the token characters. *)
Definition validHeaderFieldByte (c : ascii) : bool :=
  let n := N_of_ascii c in
  ((48 <=? n) && (n <=? 57) || (65 <=? n) && (n <=? 90)
   || (97 <=? n) && (n <=? 122)
   || existsb (N.eqb n) [33; 35; 36; 37; 38; 39; 42; 43; 45; 46; 94; 95; 96; 124; 126])%N.

Fixpoint all_bytes (p : ascii -> bool) (s : string) : bool :=
  match s with
  | EmptyString => true
  | String c r => p c && all_bytes p r
  end.

(** The rewriting loop of [canonicalMIMEHeaderKey]: upper case at the start
    and after each dash, lower case elsewhere. *)
Fixpoint canon (upper : bool) (s : string) : string :=
  match s with
  | EmptyString => EmptyString
  | String c r =>
      let n := N_of_ascii c in
      let n' :=
        (if upper && (97 <=? n) && (n <=? 122) then n - 32
         else if negb upper && (65 <=? n) && (n <=? 90) then n + 32
         else n)%N in
      String (ascii_of_N n') (canon (n' =? 45)%N r)
  end.

(** [textproto.CanonicalMIMEHeaderKey]: a key with a byte that is not a
    token character is returned unchanged. *)
Definition CanonicalMIMEHeaderKey (s : string) : string :=
  if all_bytes validHeaderFieldByte s then canon true s else s.

Section Filters.
Context {World ReqData RspData ServerRef : Type}.
Local Abbreviation Eff := (@Eff World).
Local Abbreviation Request := (@Request ReqData ServerRef).
Local Abbreviation Response := (@Response RspData).
Local Abbreviation Service := (@Service World ReqData RspData ServerRef).
Local Abbreviation Filter := (@Filter World ReqData RspData ServerRef).

(** [func (h Header) Set(key, value string)]: the assignment
    [h[CanonicalMIMEHeaderKey(key)] = []string{value}], which panics on
    the nil map. *)
Definition Header_Set (h : option Header) (key value : string)
    : Eff (option Header) :=
  match h with
  | None => panic "assignment to entry in nil map"
  | Some m => ret (Some (<[CanonicalMIMEHeaderKey key := [value]]> m))
  end.

Definition HSTSDefaultMaxAge : Z := 63072000.

(** [func HSTSFilter(maxAge int) func(request Request, service Service) Response] *)
Definition HSTSFilter (maxAge : Z) : Filter :=
  fun request service =>
    do response <- service request;
    do h <- Header_Set (rsp_header response) "Strict-Transport-Security"
              ("max-age=" +:+ Strconv.fmt_d maxAge +:+ "; includeSubDomains");
    ret {| rsp_header := h; rsp_data := rsp_data response |}.

(** The filter [Serve] and [ServeTLS] wrap around the service:
    [req.server = s; return svc(req)]. *)
Definition attach_server (s : ServerRef) : Filter :=
  fun req svc => svc {| req_data := req_data req; server := Some s |}.

End Filters.

End Pipeline.

(** ** Listener acquisition (server.go: Listen, ListenTLS, ListenUnix, ListenUnixTLS) *)

Module Net.

(** The process environment; [os.Getenv] gives the empty string for a
    variable that is not set. *)
Definition Getenv (env : gmap string string) (key : string) : string :=
  default "" (env !! key).

(** [os.TempDir] on Unix: [$TMPDIR] if non-empty, else [/tmp]. *)
Definition TempDir (env : gmap string string) : string :=
  let dir := Getenv env "TMPDIR" in
  if String.eqb dir "" then "/tmp" else dir.

(** The address chosen at the head of [Listen] and [ListenTLS]. *)
Definition Listen_addr (env : gmap string string) (addr : string) : string :=
  if String.eqb addr "" then
    let _addr := Getenv env "LISTEN_ADDR" in
    if negb (String.eqb _addr "") then _addr
    else
      match Strconv.Atoi (Getenv env "PORT") with
      | Some port =>
          if (0 <=? port)%Z then ":" +:+ Strconv.fmt_d port else ":0"
      | None => ":0"
      end
  else addr.

(** The path chosen at the head of [ListenUnix] and [ListenUnixTLS] (the
    [log.Printf] of the last branch is left out). *)
Definition ListenUnix_path (env : gmap string string) (path : string) : string :=
  if String.eqb path "" then
    let _addr := Getenv env "LISTEN_PATH" in
    if negb (String.eqb _addr "") then _addr
    else TempDir env
  else path.

(** [net.SplitHostPort] for the forms without brackets: the text before the
    last colon is the host, the text after it the port. *)
Fixpoint split_last_colon (s : string) : option (string * string) :=
  match s with
  | EmptyString => None
  | String c r =>
      match split_last_colon r with
      | Some (h, p) => Some (String c h, p)
      | None => if (N_of_ascii c =? 58)%N then Some (EmptyString, r) else None
      end
  end.

Record TCPAddr : Type := mkTCPAddr {
  IP : string;
  Port : string
}.

(** [net.ResolveTCPAddr("tcp", addr)], without name resolution. *)
Definition ResolveTCPAddr (addr : string) : TCPAddr + string :=
  match split_last_colon addr with
  | Some (h, p) => inl {| IP := h; Port := p |}
  | None => inr "missing port in address"
  end.

(** A TCP listener whose address has no host listens on every interface of
    the machine. *)
Definition all_interfaces (a : TCPAddr) : bool :=
  String.eqb (IP a) "" || String.eqb (IP a) "0.0.0.0" || String.eqb (IP a) "::".

Definition loopback_only (a : TCPAddr) : bool :=
  String.eqb (IP a) "127.0.0.1" || String.eqb (IP a) "localhost"
  || String.eqb (IP a) "::1".

(** [p] names something inside directory [dir]. *)
Definition under_dir (dir p : string) : Prop :=
  exists name, name <> "" /\ p = dir +:+ name.

Inductive Listener : Type :=
| TCPListener (a : TCPAddr)
| UnixListener (name : string).

(** What the operating system answers to [net.ListenTCP] and
    [net.ListenUnix]. *)
Record OS : Type := mkOS {
  ListenTCP : TCPAddr -> Listener + string;
  ListenUnix : string -> Listener + string
}.

End Net.

(** ** TLS defaults (server.go: ServeTLS) *)

Module TLS.

Definition VersionTLS12 : Z := 0x0303.

Definition CurveP256 : Z := 23.
Definition CurveP384 : Z := 24.
Definition CurveP521 : Z := 25.

Definition TLS_RSA_WITH_AES_256_CBC_SHA : Z := 0x0035.
Definition TLS_RSA_WITH_AES_256_GCM_SHA384 : Z := 0x009d.
Definition TLS_ECDHE_RSA_WITH_AES_256_CBC_SHA : Z := 0xc014.
Definition TLS_ECDHE_RSA_WITH_AES_256_GCM_SHA384 : Z := 0xc030.

(** The fields of [tls.Config] the package sets, and two it leaves alone. *)
Record Config : Type := mkConfig {
  MinVersion : Z;
  MaxVersion : Z;
  CurvePreferences : list Z;
  PreferServerCipherSuites : bool;
  CipherSuites : list Z;
  NextProtos : list string
}.

(** The literal built by [ServeTLS] when [cfg == nil]; fields that are not
    named keep Go's zero value. *)
Definition default_config : Config :=
  {| MinVersion := VersionTLS12;
     MaxVersion := 0;
     CurvePreferences := [CurveP521; CurveP384; CurveP256];
     PreferServerCipherSuites := true;
     CipherSuites :=
       [TLS_ECDHE_RSA_WITH_AES_256_GCM_SHA384;
        TLS_ECDHE_RSA_WITH_AES_256_CBC_SHA;
        TLS_RSA_WITH_AES_256_GCM_SHA384;
        TLS_RSA_WITH_AES_256_CBC_SHA];
     NextProtos := [] |}.

End TLS.

(** ** The server and its goroutines (server.go: Server, Stop, addShutdownFunc, Serve, ServeTLS) *)

Module Shutdown.

Definition Err : Type := string.

(** [http.ErrServerClosed] and [context.Canceled]. *)
Definition ErrServerClosed : Err := "http: Server closed".
Definition Canceled : Err := "context canceled".

(** A [context.Context]: who it is, and what [ctx.Err()] answers. *)
Record Ctx : Type := mkCtx {
  ctx_id : nat;
  ctx_err : option Err
}.

Definition Background : Ctx := {| ctx_id := 0; ctx_err := None |}.

(** [context.WithCancel(parent)] gives a child context and its [cancel]. *)
Definition WithCancel (parent : Ctx) : Ctx := parent.

Definition cancel (c : Ctx) : Ctx :=
  {| ctx_id := ctx_id c; ctx_err := Some (default Canceled (ctx_err c)) |}.

(** Severities of monzo/slog, lowest first. *)
Inductive Severity : Type :=
| TraceSeverity
| DebugSeverity
| InfoSeverity
| WarnSeverity
| ErrorSeverity
| CriticalSeverity.

Definition severity_rank (v : Severity) : nat :=
  match v with
  | TraceSeverity => 0
  | DebugSeverity => 1
  | InfoSeverity => 2
  | WarnSeverity => 3
  | ErrorSeverity => 4
  | CriticalSeverity => 5
  end.

(** A registered shutdown function, [func(context.Context)], by name. *)
Definition Func : Type := nat.

(** What a call [f(ctx)] of a shutdown function does. *)
Inductive Outcome : Type :=
| Succeeds
| TimesOut
| Panics
| Hangs.

(** The answers of the code outside the package. *)
Record Oracle : Type := mkOracle {
  serve_result : option Err;
  shutdown_result : Ctx -> option Err;
  close_result : option Err;
  behaviour : Func -> Ctx -> Outcome
}.

(** What can be seen of a run: log lines, the close of the channel, the [go]
    statements of [Stop], the calls into the HTTP server and into the
    shutdown functions, and panics. *)
Inductive Event : Type :=
| EvLog (sev : Severity) (msg : string)
| EvChanClose
| EvGoDrain (c : Ctx)
| EvGoPart (f : Func) (c : Ctx)
| EvSrvShutdown (c : Ctx)
| EvSrvClose
| EvCall (f : Func) (c : Ctx)
| EvPanic (e : Err).

(** The messages given to slog. *)
Definition msgServeError : string := "HTTP server error: %v".
Definition msgGracefulFailed : string :=
  "Graceful shutdown failed; forcibly closing connections 👢".
Definition msgForcefulFailed : string :=
  "Forceful shutdown failed, exiting 😱: %v".

(** [sync.Once]; the goroutine running the body is recorded for the proofs,
    no step looks at it. *)
Inductive Once : Type :=
| OnceFresh
| OnceRunning (by_ : nat)
| OnceDone.

(** Where a goroutine stands. *)
Inductive pc : Type :=
(* the goroutine started by Serve and ServeTLS *)
| AlServe
| AlServeTLS (certFile keyFile : string)
| AlCheck (err : option Err)
| AlLog (err : Err)
| AlWithCancel
| AlCancel (c : Ctx)
| AlExit
(* a call Stop(ctx) *)
| StLock (c : Ctx)
| StOnce (c : Ctx)
| StClose (c : Ctx)
| StWgNew (c : Ctx)
| StWgAdd (c : Ctx)
| StGoDrain (c : Ctx)
| StRange (c : Ctx)
| StLoop (c : Ctx) (rest : list Func)
| StGo (c : Ctx) (f : Func) (rest : list Func)
| StWait (c : Ctx)
| StOnceDone (c : Ctx)
| StUnlock (c : Ctx) (ran : bool)
| StReturned (c : Ctx) (ran : bool)
(* the goroutine draining the HTTP server *)
| DrShutdown (c : Ctx)
| DrLogDebug (c : Ctx)
| DrClose (c : Ctx)
| DrLogCritical (c : Ctx) (e : Err)
| DrPanic (e : Err)
(* the goroutine of one shutdown function *)
| PtCall (f : Func) (c : Ctx)
| PtRun (f : Func) (c : Ctx)
(* the end of either: deferred wg.Done(), or a panic on its way out *)
| BrDone
| BrFinished
| Unwinding
| Dying
| Dead
(* a call addShutdownFunc(f) *)
| AddLock (f : Func)
| AddAppend (f : Func)
| AddUnlock
| AddReturned.

(** The mutable fields of [Server] ([shuttingDown] is true once the channel
    is closed; the mutex [shutdownFuncsM] is [None] when free and else names
    the goroutine that locked it), the [sync.WaitGroup] of the [Once] body,
    the goroutines by number, what has happened so far, and whether the
    process has died of a panic. *)
Record State : Type := mkState {
  shuttingDown : bool;
  shutdownOnce : Once;
  shutdownFuncs : list Func;
  shutdownFuncsM : option nat;
  wg : nat;
  threads : list pc;
  trace : list Event;
  crashed : bool
}.

Definition with_shuttingDown (b : bool) (s : State) : State :=
  mkState b (shutdownOnce s) (shutdownFuncs s) (shutdownFuncsM s) (wg s)
    (threads s) (trace s) (crashed s).

Definition with_shutdownOnce (o : Once) (s : State) : State :=
  mkState (shuttingDown s) o (shutdownFuncs s) (shutdownFuncsM s) (wg s)
    (threads s) (trace s) (crashed s).

Definition with_shutdownFuncs (fs : list Func) (s : State) : State :=
  mkState (shuttingDown s) (shutdownOnce s) fs (shutdownFuncsM s) (wg s)
    (threads s) (trace s) (crashed s).

Definition with_shutdownFuncsM (m : option nat) (s : State) : State :=
  mkState (shuttingDown s) (shutdownOnce s) (shutdownFuncs s) m (wg s)
    (threads s) (trace s) (crashed s).

Definition with_wg (n : nat) (s : State) : State :=
  mkState (shuttingDown s) (shutdownOnce s) (shutdownFuncs s)
    (shutdownFuncsM s) n (threads s) (trace s) (crashed s).

Definition with_threads (ths : list pc) (s : State) : State :=
  mkState (shuttingDown s) (shutdownOnce s) (shutdownFuncs s)
    (shutdownFuncsM s) (wg s) ths (trace s) (crashed s).

Definition with_trace (tr : list Event) (s : State) : State :=
  mkState (shuttingDown s) (shutdownOnce s) (shutdownFuncs s)
    (shutdownFuncsM s) (wg s) (threads s) tr (crashed s).

Definition with_crashed (b : bool) (s : State) : State :=
  mkState (shuttingDown s) (shutdownOnce s) (shutdownFuncs s)
    (shutdownFuncsM s) (wg s) (threads s) (trace s) b.

(** [func (s *Server) Done() <-chan struct{}], as a receiver finds the
    channel: true when it is closed. *)
Definition Done (s : State) : bool := shuttingDown s.

Definition goto (t : nat) (p : pc) (s : State) : State :=
  with_threads (<[t := p]> (threads s)) s.

Definition spawn (p : pc) (s : State) : State :=
  with_threads (threads s ++ [p]) s.

Definition emit (e : Event) (s : State) : State :=
  with_trace (trace s ++ [e]) s.

(** [wg.Done()]: [None] is the panic on a negative counter. *)
Definition wg_Done (s : State) : option State :=
  match wg s with
  | O => None
  | S n => Some (with_wg n s)
  end.

(** The goroutine started by [Serve] and [ServeTLS]:
    [err := s.srv.Serve(l); if err != nil && err != http.ErrServerClosed
    { slog.Error(...); ctx, cancel := context.WithCancel(context.Background());
    cancel(); s.Stop(ctx) }]. The statement at [p] is run by goroutine [t];
    [None] when there is nothing to run. *)
Definition serve_loop (o : Oracle) (t : nat) (s : State) (p : pc) : option State :=
  match p with
  | AlServe | AlServeTLS _ _ => Some (goto t (AlCheck (serve_result o)) s)
  | AlCheck None => Some (goto t AlExit s)
  | AlCheck (Some err) =>
      if String.eqb err ErrServerClosed then Some (goto t AlExit s)
      else Some (goto t (AlLog err) s)
  | AlLog err =>
      Some (goto t AlWithCancel
              (emit (EvLog ErrorSeverity msgServeError) s))
  | AlWithCancel => Some (goto t (AlCancel (WithCancel Background)) s)
  | AlCancel c => Some (goto t (StLock (cancel c)) s)
  | _ => None
  end.

(** [func (s *Server) Stop(ctx context.Context)], statement by statement;
    [None] when the goroutine is blocked (on the mutex, on the Once, in
    [wg.Wait()]) or has returned. *)
Definition Stop (t : nat) (s : State) (p : pc) : option State :=
  match p with
  | StLock c =>
      match shutdownFuncsM s with
      | None => Some (goto t (StOnce c) (with_shutdownFuncsM (Some t) s))
      | Some _ => None
      end
  | StOnce c =>
      match shutdownOnce s with
      | OnceFresh =>
          Some (goto t (StClose c) (with_shutdownOnce (OnceRunning t) s))
      | OnceRunning _ => None
      | OnceDone => Some (goto t (StUnlock c false) s)
      end
  | StClose c =>
      if shuttingDown s then
        Some (goto t Dying (emit (EvPanic "close of closed channel") s))
      else Some (goto t (StWgNew c) (emit EvChanClose (with_shuttingDown true s)))
  | StWgNew c => Some (goto t (StWgAdd c) (with_wg 0 s))
  | StWgAdd c => Some (goto t (StGoDrain c) (with_wg (wg s + 1) s))
  | StGoDrain c =>
      Some (goto t (StRange c) (spawn (DrShutdown c) (emit (EvGoDrain c) s)))
  | StRange c => Some (goto t (StLoop c (shutdownFuncs s)) s)
  | StLoop c [] => Some (goto t (StWait c) s)
  | StLoop c (f :: rest) => Some (goto t (StGo c f rest) (with_wg (wg s + 1) s))
  | StGo c f rest =>
      Some (goto t (StLoop c rest) (spawn (PtCall f c) (emit (EvGoPart f c) s)))
  | StWait c =>
      match wg s with
      | O => Some (goto t (StOnceDone c) s)
      | S _ => None
      end
  | StOnceDone c => Some (goto t (StUnlock c true) (with_shutdownOnce OnceDone s))
  | StUnlock c ran => Some (goto t (StReturned c ran) (with_shutdownFuncsM None s))
  | _ => None
  end.

(** The first goroutine of [Stop]:
    [if err := s.srv.Shutdown(ctx); err != nil { slog.Debug(...);
    if err := s.srv.Close(); err != nil { slog.Critical(...); panic(err) } }]. *)
Definition Stop_drain (o : Oracle) (t : nat) (s : State) (p : pc) : option State :=
  match p with
  | DrShutdown c =>
      let s1 := emit (EvSrvShutdown c) s in
      match shutdown_result o c with
      | None => Some (goto t BrDone s1)
      | Some _ => Some (goto t (DrLogDebug c) s1)
      end
  | DrLogDebug c =>
      Some (goto t (DrClose c)
              (emit (EvLog DebugSeverity
                       msgGracefulFailed) s))
  | DrClose c =>
      let s1 := emit EvSrvClose s in
      match close_result o with
      | None => Some (goto t BrDone s1)
      | Some e => Some (goto t (DrLogCritical c e) s1)
      end
  | DrLogCritical c e =>
      Some (goto t (DrPanic e)
              (emit (EvLog CriticalSeverity msgForcefulFailed) s))
  | DrPanic e => Some (goto t Unwinding (emit (EvPanic e) s))
  | _ => None
  end.

(** The goroutine [Stop] starts for a shutdown function: [f(ctx)]. *)
Definition Stop_func (o : Oracle) (t : nat) (s : State) (p : pc) : option State :=
  match p with
  | PtCall f c => Some (goto t (PtRun f c) (emit (EvCall f c) s))
  | PtRun f c =>
      match behaviour o f c with
      | Succeeds | TimesOut => Some (goto t BrDone s)
      | Panics => Some (goto t Unwinding (emit (EvPanic "shutdown function") s))
      | Hangs => None
      end
  | _ => None
  end.

(** The end of a goroutine of [Stop]: the deferred [wg.Done()], after a
    return or during a panic, and the death of the process that a panic
    reaching the top of a goroutine brings. *)
Definition Stop_exit (t : nat) (s : State) (p : pc) : option State :=
  match p with
  | BrDone =>
      match wg_Done s with
      | Some s1 => Some (goto t BrFinished s1)
      | None => Some (goto t Dying (emit (EvPanic "sync: negative WaitGroup counter") s))
      end
  | Unwinding =>
      match wg_Done s with
      | Some s1 => Some (goto t Dying s1)
      | None => Some (goto t Dying s)
      end
  | Dying => Some (goto t Dead (with_crashed true s))
  | _ => None
  end.

(** [func (s *Server) addShutdownFunc(f func(context.Context))] *)
Definition addShutdownFunc (t : nat) (s : State) (p : pc) : option State :=
  match p with
  | AddLock f =>
      match shutdownFuncsM s with
      | None => Some (goto t (AddAppend f) (with_shutdownFuncsM (Some t) s))
      | Some _ => None
      end
  | AddAppend f =>
      Some (goto t AddUnlock (with_shutdownFuncs (shutdownFuncs s ++ [f]) s))
  | AddUnlock => Some (goto t AddReturned (with_shutdownFuncsM None s))
  | _ => None
  end.

(** The statement at [p], run by goroutine [t]. *)
Definition step_pc (o : Oracle) (t : nat) (s : State) (p : pc) : option State :=
  match p with
  | AlServe | AlServeTLS _ _ | AlCheck _ | AlLog _ | AlWithCancel | AlCancel _
  | AlExit => serve_loop o t s p
  | StLock _ | StOnce _ | StClose _ | StWgNew _ | StWgAdd _ | StGoDrain _
  | StRange _ | StLoop _ _ | StGo _ _ _ | StWait _ | StOnceDone _
  | StUnlock _ _ | StReturned _ _ => Stop t s p
  | DrShutdown _ | DrLogDebug _ | DrClose _ | DrLogCritical _ _ | DrPanic _ =>
      Stop_drain o t s p
  | PtCall _ _ | PtRun _ _ => Stop_func o t s p
  | BrDone | BrFinished | Unwinding | Dying | Dead => Stop_exit t s p
  | AddLock _ | AddAppend _ | AddUnlock | AddReturned => addShutdownFunc t s p
  end.

(** One step of goroutine [t]; [None] when [t] cannot move: it is blocked,
    it has ended, or the process is dead. *)
Definition step (o : Oracle) (t : nat) (s : State) : option State :=
  if crashed s then None else
  match threads s !! t with
  | None => None
  | Some p => step_pc o t s p
  end.

(** Running a schedule: the goroutines named in it move one step each, in
    that order; a goroutine that cannot move is skipped. *)
Definition run (o : Oracle) (sched : list nat) (s : State) : State :=
  fold_left (fun s t => default s (step o t s)) sched s.

End Shutdown.

(** ** Starting a server (server.go: Serve, ServeTLS and the Listen family) *)

Module Server.

Import Pipeline Shutdown.

Definition DefaultMaxHeaderBytes : Z := Z.shiftl 1 20.

Section Server.
Context {World ReqData RspData : Type}.
Local Abbreviation Service := (@Service World ReqData RspData nat).

(** The fields of [http.Server] the package fills in; [None] is Go's nil.
    [HttpHandler], which turns a service into an [http.Handler], is not part
    of these sources: the handler is given by the service it serves. *)
Record httpServer : Type := mkHttpServer {
  Handler : Service;
  MaxHeaderBytes : Z;
  TLSConfig : option TLS.Config;
  TLSNextProto : option (gmap string unit)
}.

(** A [*Server]: the listener, the HTTP server, and the state its
    goroutines work on. *)
Record Server : Type := mkServer {
  l : Net.Listener;
  srv : httpServer;
  rt : State
}.

(** The fresh [&Server{l: l, shuttingDown: make(chan struct{})}] together
    with the goroutine the constructor starts. *)
Definition fresh_state (accept : pc) : State :=
  {| shuttingDown := false;
     shutdownOnce := OnceFresh;
     shutdownFuncs := [];
     shutdownFuncsM := None;
     wg := 0;
     threads := [accept];
     trace := [];
     crashed := false |}.

(** [func Serve(svc Service, l net.Listener) (server, error)]; [s] is the
    address of the new server. *)
Definition Serve (s : nat) (svc : Service) (l : Net.Listener)
    : Server * option Err :=
  ({| l := l;
      srv := {| Handler := Service_Filter svc (attach_server s);
                MaxHeaderBytes := DefaultMaxHeaderBytes;
                TLSConfig := None;
                TLSNextProto := None |};
      rt := fresh_state AlServe |},
   None).

(** [func ServeTLS(svc Service, l net.Listener, certFile, keyFile string, cfg) (server, error)] *)
Definition ServeTLS (s : nat) (svc : Service) (l : Net.Listener)
    (certFile keyFile : string) (cfg : option TLS.Config)
    : Server * option Err :=
  let cfg :=
    match cfg with
    | None => Some TLS.default_config
    | Some c => Some c
    end in
  ({| l := l;
      srv := {| Handler := Service_Filter svc (attach_server s);
                MaxHeaderBytes := DefaultMaxHeaderBytes;
                TLSConfig := cfg;
                TLSNextProto := Some ∅ |};
      rt := fresh_state (AlServeTLS certFile keyFile) |},
   None).

(** [func Listen(svc Service, addr string) (server, error)] *)
Definition Listen (os : Net.OS) (env : gmap string string) (s : nat)
    (svc : Service) (addr : string) : option Server * option Err :=
  match Net.ResolveTCPAddr (Net.Listen_addr env addr) with
  | inr err => (None, Some err)
  | inl tcpAddr =>
      match Net.ListenTCP os tcpAddr with
      | inr err => (None, Some err)
      | inl l => let '(sv, err) := Serve s svc l in (Some sv, err)
      end
  end.

(** [func ListenTLS(svc Service, addr, certFile, keyFile string, cfg) (server, error)] *)
Definition ListenTLS (os : Net.OS) (env : gmap string string) (s : nat)
    (svc : Service) (addr certFile keyFile : string) (cfg : option TLS.Config)
    : option Server * option Err :=
  match Net.ResolveTCPAddr (Net.Listen_addr env addr) with
  | inr err => (None, Some err)
  | inl tcpAddr =>
      match Net.ListenTCP os tcpAddr with
      | inr err => (None, Some err)
      | inl l =>
          let '(sv, err) := ServeTLS s svc l certFile keyFile cfg in
          (Some sv, err)
      end
  end.

(** [func ListenUnix(svc Service, path string) (server, error, cleanup)];
    the third component is the path the returned function removes. *)
Definition ListenUnix (os : Net.OS) (env : gmap string string) (s : nat)
    (svc : Service) (path : string)
    : option Server * option Err * option string :=
  let path := Net.ListenUnix_path env path in
  match Net.ListenUnix os path with
  | inr err => (None, Some err, None)
  | inl l => let '(sv, err) := Serve s svc l in (Some sv, err, Some path)
  end.

(** [func ListenUnixTLS(svc Service, path, certFile, keyFile string, cfg) (server, error, cleanup)] *)
Definition ListenUnixTLS (os : Net.OS) (env : gmap string string) (s : nat)
    (svc : Service) (path certFile keyFile : string) (cfg : option TLS.Config)
    : option Server * option Err * option string :=
  let path := Net.ListenUnix_path env path in
  match Net.ListenUnix os path with
  | inr err => (None, Some err, None)
  | inl l =>
      let '(sv, err) := ServeTLS s svc l certFile keyFile cfg in
      (Some sv, err, Some path)
  end.

End Server.

(** Callers of [Stop] and of [addShutdownFunc] joining a started server. *)
Definition with_callers (callers : list pc) (st : State) : State :=
  with_threads (threads st ++ callers) st.

End Server.

(** ** Sample handlers and requests used in the examples *)

Module Samples.

Import Pipeline.

(** A step that writes [msg] to a log and passes its argument on. *)
Definition say (msg : string) {A} (a : A) : @Eff (list string) A :=
  fun w => (Ret a, (w ++ [msg])%list).

(** A handler that answers with the zero [Response]: no header map. *)
Definition bare_service : @Service unit unit unit unit :=
  fun _ => ret {| rsp_header := None; rsp_data := tt |}.

Definition hsts_request : @Request unit unit := {| req_data := tt; server := None |}.



Import Shutdown.

(** A context that is not done, as [context.WithTimeout] gives it. *)
Definition ctx10 : Ctx := {| ctx_id := 1; ctx_err := None |}.

(** A world where all goes well: the drain fails only for a context that
    is already done. *)
Definition calm : Oracle :=
  {| serve_result := Some ErrServerClosed;
     shutdown_result := ctx_err;
     close_result := None;
     behaviour := fun _ _ => Succeeds |}.


(** A world in which the shutdown function [bad] never returns. *)
Definition hanging (bad : Func) : Oracle :=
  {| serve_result := Some ErrServerClosed;
     shutdown_result := ctx_err;
     close_result := None;
     behaviour := fun f _ => if Nat.eqb f bad then Hangs else Succeeds |}.

(** A world in which the accept loop breaks, the drain runs out of time and
    the forced close fails too. *)
Definition broken : Oracle :=
  {| serve_result := Some "accept tcp: too many open files";
     shutdown_result := fun _ => Some "context deadline exceeded";
     close_result := Some "close tcp: bad file descriptor";
     behaviour := fun _ _ => TimesOut |}.

(** Goroutines [0 .. n-1] take turns, [k] rounds. *)
Definition round_robin (n k : nat) : list nat := concat (replicate k (seq 0 n)).

End Samples.

(** ** Bookkeeping for the proofs about the goroutines *)

Module Invariant.

Import Shutdown.

(** Sum of a measure over a list: goroutines of a kind, events of a kind. *)
Fixpoint total {A : Type} (f : A -> nat) (l : list A) : nat :=
  match l with
  | [] => 0
  | x :: r => f x + total f r
  end.

Definition b2n (b : bool) : nat := if b then 1 else 0.

(** From [Lock] to the deferred [Unlock] of [Stop] and [addShutdownFunc]. *)
Definition holds_lock (p : pc) : bool :=
  match p with
  | StOnce _ | StClose _ | StWgNew _ | StWgAdd _ | StGoDrain _ | StRange _
  | StLoop _ _ | StGo _ _ _ | StWait _ | StOnceDone _ | StUnlock _ _
  | AddAppend _ | AddUnlock => true
  | _ => false
  end.

(** Inside the function given to [shutdownOnce.Do]. *)
Definition in_body (p : pc) : bool :=
  match p with
  | StClose _ | StWgNew _ | StWgAdd _ | StGoDrain _ | StRange _
  | StLoop _ _ | StGo _ _ _ | StWait _ | StOnceDone _ => true
  | _ => false
  end.

(** Past [shutdownOnce.Do], having run its function or not. *)
Definition past_once (p : pc) : option bool :=
  match p with
  | StUnlock _ ran | StReturned _ ran => Some ran
  | _ => None
  end.

(** The call of [Stop] that runs, or ran, the shutdown algorithm. *)
Definition executed (p : pc) : bool :=
  in_body p || bool_decide (past_once p = Some true).

(** The context a call of [Stop] was given. *)
Definition stop_ctx (p : pc) : option Ctx :=
  match p with
  | StLock c | StOnce c | StClose c | StWgNew c | StWgAdd c | StGoDrain c
  | StRange c | StLoop c _ | StGo c _ _ | StWait c | StOnceDone c
  | StUnlock c _ | StReturned c _ => Some c
  | _ => None
  end.

(** A goroutine launched by the shutdown algorithm. *)
Definition is_branch (p : pc) : bool :=
  match p with
  | DrShutdown _ | DrLogDebug _ | DrClose _ | DrLogCritical _ _ | DrPanic _
  | PtCall _ _ | PtRun _ _ | BrDone | BrFinished | Unwinding | Dying | Dead => true
  | _ => false
  end.

(** What the WaitGroup still waits for: an [Add(1)] whose [Done()] has not
    run yet. *)
Definition wg_pending (p : pc) : nat :=
  match p with
  | StGoDrain _ | StGo _ _ _ => 1
  | DrShutdown _ | DrLogDebug _ | DrClose _ | DrLogCritical _ _ | DrPanic _
  | PtCall _ _ | PtRun _ _ | BrDone | Unwinding => 1
  | _ => 0
  end.

(** A goroutine that has nothing left to do. *)
Definition finished (p : pc) : bool :=
  match p with
  | AlExit | StReturned _ _ | BrFinished | AddReturned | Dead => true
  | _ => false
  end.

(** A goroutine on the way to, or past, a panic. *)
Definition doomed (p : pc) : bool :=
  match p with
  | DrLogCritical _ _ | DrPanic _ | Unwinding | Dying | Dead => true
  | _ => false
  end.

(** A call of [addShutdownFunc] that has not appended yet. *)
Definition add_pending (p : pc) : nat :=
  match p with
  | AddLock _ | AddAppend _ => 1
  | _ => 0
  end.

#[global] Instance Ctx_eq_dec : EqDecision Ctx.
Proof. solve_decision. Defined.

Definition at_PtCall (f : Func) (c : Ctx) (p : pc) : nat :=
  match p with
  | PtCall f' c' => b2n (bool_decide (f' = f /\ c' = c))
  | _ => 0
  end.

Definition at_DrShutdown (c : Ctx) (p : pc) : nat :=
  match p with
  | DrShutdown c' => b2n (bool_decide (c' = c))
  | _ => 0
  end.

Definition is_call (f : Func) (c : Ctx) (e : Event) : nat :=
  match e with
  | EvCall f' c' => b2n (bool_decide (f' = f /\ c' = c))
  | _ => 0
  end.

Definition is_gopart (f : Func) (c : Ctx) (e : Event) : nat :=
  match e with
  | EvGoPart f' c' => b2n (bool_decide (f' = f /\ c' = c))
  | _ => 0
  end.

Definition is_godrain (c : Ctx) (e : Event) : nat :=
  match e with
  | EvGoDrain c' => b2n (bool_decide (c' = c))
  | _ => 0
  end.

Definition is_srv_shutdown (c : Ctx) (e : Event) : nat :=
  match e with
  | EvSrvShutdown c' => b2n (bool_decide (c' = c))
  | _ => 0
  end.

Definition is_launch (e : Event) : bool :=
  match e with
  | EvGoDrain _ | EvGoPart _ _ => true
  | _ => false
  end.

(** The events of the coordinator itself: closing the channel and
    launching goroutines. *)
Definition is_coord (e : Event) : bool :=
  match e with
  | EvChanClose | EvGoDrain _ | EvGoPart _ _ => true
  | _ => false
  end.

Definition coord (tr : list Event) : list Event := List.filter is_coord tr.

(** The coordinator's events once the drain and the functions [fs] have
    been launched with context [c]. *)
Definition launched (c : Ctx) (fs : list Func) : list Event :=
  EvChanClose :: EvGoDrain c :: map (fun f => EvGoPart f c) fs.

(** What holds while goroutine at [p] is inside the [Once] body. *)
Definition body_ok (s : State) (p : pc) : Prop :=
  match p with
  | StClose c => shuttingDown s = false /\ coord (trace s) = [] /\ wg s = 0%nat
  | StWgNew c => shuttingDown s = true /\ coord (trace s) = [EvChanClose] /\ wg s = 0%nat
  | StWgAdd c | StGoDrain c =>
      shuttingDown s = true /\ coord (trace s) = [EvChanClose]
  | StRange c => shuttingDown s = true /\ coord (trace s) = launched c []
  | StLoop c rest =>
      shuttingDown s = true /\
      exists done, coord (trace s) = launched c done
                   /\ shutdownFuncs s = (done ++ rest)%list
  | StGo c f rest =>
      shuttingDown s = true /\
      exists done, coord (trace s) = launched c done
                   /\ shutdownFuncs s = (done ++ f :: rest)%list
  | StWait c =>
      shuttingDown s = true /\ coord (trace s) = launched c (shutdownFuncs s)
  | StOnceDone c =>
      shuttingDown s = true /\ coord (trace s) = launched c (shutdownFuncs s)
      /\ wg s = 0%nat
  | _ => False
  end.

(** The invariant of a server's state: the mutex is held by the one
    goroutine between its [Lock] and its [Unlock]; the Once is running for
    the one goroutine inside its body, and done for the calls that skipped
    it; the WaitGroup counts the [Add(1)]s whose [Done()] is still to come;
    there is a goroutine for every [go] statement run, a call or a pending
    call for every function launched, and likewise for the drain; and the
    coordinator's events are those of the statements run so far. *)
Record Inv (s : State) : Prop := mkInv {
  inv_lock : forall t p,
    threads s !! t = Some p -> holds_lock p = true -> shutdownFuncsM s = Some t;
  inv_lock_held : forall t,
    shutdownFuncsM s = Some t ->
    exists p, threads s !! t = Some p /\ holds_lock p = true;
  inv_body : forall t p,
    threads s !! t = Some p -> in_body p = true -> shutdownOnce s = OnceRunning t;
  inv_skipped : forall t p,
    threads s !! t = Some p -> past_once p = Some false -> shutdownOnce s = OnceDone;
  inv_wg : wg s = total wg_pending (threads s);
  inv_branches :
    total (fun p => b2n (is_branch p)) (threads s)
    = total (fun e => b2n (is_launch e)) (trace s);
  inv_calls : forall f c,
    (total (is_call f c) (trace s) + total (at_PtCall f c) (threads s)
     = total (is_gopart f c) (trace s))%nat;
  inv_drain : forall c,
    (total (is_srv_shutdown c) (trace s) + total (at_DrShutdown c) (threads s)
     = total (is_godrain c) (trace s))%nat;
  inv_shape :
    match shutdownOnce s with
    | OnceFresh =>
        shuttingDown s = false /\ coord (trace s) = [] /\ wg s = 0%nat
        /\ total (fun p => b2n (executed p)) (threads s) = 0%nat
    | OnceRunning t =>
        (exists p, threads s !! t = Some p /\ in_body p = true /\ body_ok s p)
        /\ total (fun p => b2n (executed p)) (threads s) = 1%nat
    | OnceDone =>
        shuttingDown s = true /\ wg s = 0%nat
        /\ (exists t p c fs more,
              threads s !! t = Some p /\ past_once p = Some true
              /\ stop_ctx p = Some c
              /\ coord (trace s) = launched c fs
              /\ shutdownFuncs s = (fs ++ more)%list)
        /\ total (fun p => b2n (executed p)) (threads s) = 1%nat
    end
}.

(** An outside world in which nothing panics: no shutdown function does,
    and the forced close of the HTTP server does not fail. *)
Definition no_panic (o : Oracle) : Prop :=
  close_result o = None /\ forall f c, behaviour o f c <> Panics.

(** An outside world in which, moreover, every shutdown function returns. *)
Definition well_behaved (o : Oracle) : Prop :=
  no_panic o /\ forall f c, behaviour o f c <> Hangs.

(** Nothing is on its way to a panic. *)
Definition sound (s : State) : Prop :=
  crashed s = false /\ total (fun p => b2n (doomed p)) (threads s) = 0%nat.

Definition is_close (e : Event) : nat :=
  match e with
  | EvChanClose => 1
  | _ => 0
  end.

(** The accept loop ended with an error other than [http.ErrServerClosed]. *)
Definition fatal (o : Oracle) : Prop :=
  exists e, serve_result o = Some e /\ e <> ErrServerClosed.


(** A marker for hypotheses the proof scripts have already used. *)
Definition seen (P : Prop) : Prop := P.

(** How many steps a goroutine at [p] and the goroutines it will launch can
    still take, when at most [k] functions are or will be registered. *)
Definition weight (k : nat) (p : pc) : nat :=
  match p with
  | AlServe | AlServeTLS _ _ => 24 + 10 * k
  | AlCheck _ => 23 + 10 * k
  | AlLog _ => 22 + 10 * k
  | AlWithCancel => 21 + 10 * k
  | AlCancel _ => 20 + 10 * k
  | AlExit => 0
  | StLock _ => 19 + 10 * k
  | StOnce _ => 18 + 10 * k
  | StClose _ => 17 + 10 * k
  | StWgNew _ => 16 + 10 * k
  | StWgAdd _ => 15 + 10 * k
  | StGoDrain _ => 14 + 10 * k
  | StRange _ => 5 + 10 * k
  | StLoop _ rest => 4 + 10 * length rest
  | StGo _ _ rest => 13 + 10 * length rest
  | StWait _ => 3
  | StOnceDone _ => 2
  | StUnlock _ _ => 1
  | StReturned _ _ => 0
  | DrShutdown _ => 7
  | DrLogDebug _ => 6
  | DrClose _ => 5
  | DrLogCritical _ _ => 4
  | DrPanic _ => 3
  | PtCall _ _ => 4
  | PtRun _ _ => 3
  | BrDone => 2
  | BrFinished => 0
  | Unwinding => 2
  | Dying => 1
  | Dead => 0
  | AddLock _ => 3
  | AddAppend _ => 2
  | AddUnlock => 1
  | AddReturned => 0
  end.

Definition registrations (s : State) : nat :=
  length (shutdownFuncs s) + total add_pending (threads s).

Definition measure (s : State) : nat :=
  total (weight (registrations s)) (threads s).

(** The steps really taken along a schedule. *)
Fixpoint moves (o : Oracle) (sched : list nat) (s : State) : nat :=
  match sched with
  | [] => 0
  | t :: rest =>
      match step o t s with
      | Some s' => S (moves o rest s')
      | None => moves o rest s
      end
  end.

(** No goroutine can move. *)
Definition halted (o : Oracle) (s : State) : Prop :=
  forall t, step o t s = None.

(** Callers enter at the first statement of [Stop] or [addShutdownFunc]. *)
Definition is_entry (p : pc) : bool :=
  match p with
  | StLock _ | AddLock _ => true
  | _ => false
  end.

End Invariant.

(** * Properties *)

Import Pipeline Samples.

Section PipelineFacts.
Context {World ReqData RspData ServerRef : Type}.
Local Abbreviation Eff := (@Eff World).
Local Abbreviation Request := (@Request ReqData ServerRef).
Local Abbreviation Response := (@Response RspData).
Local Abbreviation Service := (@Service World ReqData RspData ServerRef).
Local Abbreviation Filter := (@Filter World ReqData RspData ServerRef).

Lemma bind_ret_l {A B} (a : A) (k : A -> Eff B) w : bind (ret a) k w = k a w.
Proof. reflexivity. Qed.

Lemma bind_assoc {A B C} (m : Eff A) (k : A -> Eff B) (h : B -> Eff C) w :
  bind (bind m k) h w = bind m (fun a => bind (k a) h) w.
Proof. unfold bind. destruct (m w) as [[a | r] w']; reflexivity. Qed.

Lemma bind_ext {A B} (m : Eff A) (k k' : A -> Eff B) w :
  (forall a w', k a w' = k' a w') -> bind m k w = bind m k' w.
Proof. intros E. unfold bind. destruct (m w) as [[a | r] w']; auto. Qed.

(** Wrapping twice: the filter given last receives the request, and its
    downstream is the service wrapped by the filter given first. *)
Lemma Service_Filter_twice (T : Service) (A B : Filter) (req : Request) :
  Service_Filter (Service_Filter T A) B req = B req (fun r => A r T).
Proof. reflexivity. Qed.

(** C5: with stages A then B added by [Filter] around a terminal handler T,
    a request goes through B's work on the request, A's work on the request,
    T, A's work on the response and B's work on the response, in that order;
    in general the stage added last is called first and sees the rest of the
    pipeline as its downstream. *)
Theorem Filter_last_registered_is_outermost
    (T : Service) (preA preB : Request -> Eff Request)
    (postA postB : Response -> Eff Response) (A B : Filter)
    (req : Request) (w : World) :
  Service_Filter (Service_Filter T (stage preA postA)) (stage preB postB) req w
  = (do r1 <- preB req;
     do r2 <- preA r1;
     do rsp <- T r2;
     do rsp' <- postA rsp;
     postB rsp') w
  /\ Service_Filter (Service_Filter T A) B req w = B req (fun r => A r T) w.
Proof.
  split; [| reflexivity].
  unfold Service_Filter, stage.
  apply bind_ext; intros r1 w1.
  rewrite bind_assoc. apply bind_ext; intros r2 w2.
  rewrite bind_assoc. reflexivity.
Qed.

(** What [HSTSFilter] does when the service below it returns a response
    whose header map exists. *)
Lemma HSTSFilter_ret (maxAge : Z) (request : Request) (service : Service)
    (w w' : World) (response : Response) (h : Header) :
  service request w = (Ret response, w') ->
  rsp_header response = Some h ->
  HSTSFilter maxAge request service w
  = (Ret {| rsp_header :=
              Some (<["Strict-Transport-Security" :=
                       ["max-age=" +:+ Strconv.fmt_d maxAge +:+ "; includeSubDomains"]]> h);
            rsp_data := rsp_data response |}, w').
Proof.
  intros Hs Hh. unfold HSTSFilter, bind. rewrite Hs, Hh. reflexivity.
Qed.

Lemma HSTSFilter_panic_below (maxAge : Z) (request : Request)
    (service : Service) (w w' : World) (r : string) :
  service request w = (Panic r, w') ->
  HSTSFilter maxAge request service w = (Panic r, w').
Proof. intros Hs. unfold HSTSFilter, bind. rewrite Hs. reflexivity. Qed.

Lemma HSTSFilter_nil_header (maxAge : Z) (request : Request)
    (service : Service) (w w' : World) (response : Response) :
  service request w = (Ret response, w') ->
  rsp_header response = None ->
  HSTSFilter maxAge request service w
  = (Panic "assignment to entry in nil map", w').
Proof.
  intros Hs Hh. unfold HSTSFilter, bind. rewrite Hs, Hh. reflexivity.
Qed.

(** C10, as amended: for every maxAge, request and downstream service, when
    the downstream service returns a response that has a header map, the
    service wrapped with [HSTSFilter maxAge] returns that response with the
    Strict-Transport-Security header set to the one value
    "max-age=<maxAge>; includeSubDomains"; every other header, the rest of
    the response, the request given downstream and the effects of the
    downstream service are unchanged. *)
Theorem HSTSFilter_sets_header (maxAge : Z) (request : Request)
    (service : Service) (w w' : World) (response : Response) (h : Header)
    (Hsvc : service request w = (Ret response, w'))
    (Hhdr : rsp_header response = Some h) :
  exists response' h',
    Service_Filter service (HSTSFilter maxAge) request w = (Ret response', w')
    /\ rsp_header response' = Some h'
    /\ h' !! "Strict-Transport-Security"
       = Some ["max-age=" +:+ Strconv.fmt_d maxAge +:+ "; includeSubDomains"]
    /\ (forall k, k <> "Strict-Transport-Security" -> h' !! k = h !! k)
    /\ rsp_data response' = rsp_data response.
Proof.
  eexists _, _. unfold Service_Filter.
  rewrite (HSTSFilter_ret _ _ _ _ _ _ _ Hsvc Hhdr). simpl.
  split; [reflexivity |]. split; [reflexivity |].
  split; [apply lookup_insert_eq |].
  split; [| reflexivity].
  intros k Hk. apply lookup_insert_ne. congruence.
Qed.

End PipelineFacts.

Example Filter_order_log :
  snd (Service_Filter
         (Service_Filter
            (fun req : @Request unit unit =>
               say "T" {| rsp_header := Some ∅; rsp_data := tt |})
            (stage (say "A pre") (say "A post")))
         (stage (say "B pre") (say "B post"))
         {| req_data := tt; server := None |} [])
  = ["B pre"; "A pre"; "T"; "A post"; "B post"].
Proof. reflexivity. Qed.

Example HSTS_header_value :
  "max-age=" +:+ Strconv.fmt_d HSTSDefaultMaxAge +:+ "; includeSubDomains"
  = "max-age=63072000; includeSubDomains".
Proof. reflexivity. Qed.

Example HSTS_key_is_canonical :
  CanonicalMIMEHeaderKey "Strict-Transport-Security" = "Strict-Transport-Security"
  /\ CanonicalMIMEHeaderKey "strict-transport-security" = "Strict-Transport-Security".
Proof. split; reflexivity. Qed.

(** C10 as stated fails: below a service whose response has no header map,
    the wrapped service does not return at all. *)
Lemma HSTSFilter_nil_header_panics :
  bare_service hsts_request tt = (Ret {| rsp_header := None; rsp_data := tt |}, tt)
  /\ Service_Filter bare_service (HSTSFilter 63072000) hsts_request tt
     = (Panic "assignment to entry in nil map", tt)
  /\ ~ exists response',
         Service_Filter bare_service (HSTSFilter 63072000) hsts_request tt
         = (Ret response', tt).
Proof.
  split; [reflexivity |]. split; [reflexivity |].
  intros [r Hr]. discriminate Hr.
Qed.

Lemma HSTSFilter_sets_header_witness :
  exists response' h',
    Service_Filter
      (fun _ : @Request unit unit =>
         @ret unit _ {| rsp_header := Some ∅; rsp_data := tt |})
      (HSTSFilter 63072000) hsts_request tt = (Ret response', tt)
    /\ rsp_header response' = Some h'
    /\ h' !! "Strict-Transport-Security"
       = Some ["max-age=" +:+ Strconv.fmt_d 63072000 +:+ "; includeSubDomains"]
    /\ (forall k, k <> "Strict-Transport-Security" -> h' !! k = (∅ : Header) !! k)
    /\ rsp_data response' = tt.
Proof.
  apply (HSTSFilter_sets_header 63072000 hsts_request
           (fun _ => ret {| rsp_header := Some ∅; rsp_data := tt |})
           tt tt {| rsp_header := Some ∅; rsp_data := tt |} ∅);
    reflexivity.
Defined.

(** ** Counting over goroutines and events *)

Local Close Scope string_scope.
Local Close Scope Z_scope.

Import Shutdown Invariant.

Section Counting.
Local Open Scope nat_scope.

Lemma total_app {A} (f : A -> nat) (l1 l2 : list A) :
  total f (l1 ++ l2) = total f l1 + total f l2.
Proof. induction l1 as [| x l1 IH]; simpl; [reflexivity | rewrite IH; lia]. Qed.

Lemma total_snoc {A} (f : A -> nat) (l : list A) (x : A) :
  total f (l ++ [x]) = total f l + f x.
Proof. rewrite total_app. simpl. lia. Qed.

Lemma total_insert {A} (f : A -> nat) (l : list A) (i : nat) (x y : A) :
  l !! i = Some x -> total f (<[i := y]> l) + f x = total f l + f y.
Proof.
  revert i. induction l as [| a l IH]; intros [| i] H; simpl in *; try discriminate.
  - injection H as ->. lia.
  - specialize (IH i H). lia.
Qed.

Lemma total_lookup_le {A} (f : A -> nat) (l : list A) (i : nat) (x : A) :
  l !! i = Some x -> f x <= total f l.
Proof.
  revert i. induction l as [| a l IH]; intros [| i] H; simpl in *; try discriminate.
  - injection H as ->. lia.
  - specialize (IH i H). lia.
Qed.

Lemma total_lookup2_le {A} (f : A -> nat) (l : list A) (i j : nat) (x y : A) :
  i <> j -> l !! i = Some x -> l !! j = Some y -> f x + f y <= total f l.
Proof.
  revert i j. induction l as [| a l IH]; intros [| i] [| j] Hne Hi Hj;
    simpl in *; try discriminate; try congruence.
  - injection Hi as ->. pose proof (total_lookup_le f l j y Hj). lia.
  - injection Hj as ->. pose proof (total_lookup_le f l i x Hi). lia.
  - assert (i <> j) by congruence. specialize (IH i j H Hi Hj). lia.
Qed.

Lemma total_pos_lookup {A} (f : A -> nat) (l : list A) :
  0 < total f l -> exists i x, l !! i = Some x /\ 0 < f x.
Proof.
  induction l as [| a l IH]; simpl; [lia |].
  intros H. destruct (f a) eqn:E.
  - destruct IH as (i & x & Hi & Hx); [lia |]. exists (S i), x. auto.
  - exists 0, a. simpl. split; [reflexivity | lia].
Qed.

Lemma total_zero_Forall {A} (f : A -> nat) (l : list A) :
  total f l = 0 <-> Forall (fun x => f x = 0) l.
Proof.
  induction l as [| a l IH]; simpl.
  - split; auto.
  - rewrite Forall_cons. split.
    + intros H. split; [lia |]. apply IH. lia.
    + intros [H1 H2]. apply IH in H2. lia.
Qed.

Lemma total_ext {A} (f g : A -> nat) (l : list A) :
  (forall x, f x = g x) -> total f l = total g l.
Proof. intros E. induction l as [| a l IH]; simpl; [reflexivity | rewrite E, IH; reflexivity]. Qed.

Lemma total_filter {A} (f : A -> nat) (p : A -> bool) (l : list A) :
  (forall x, p x = false -> f x = 0) -> total f (List.filter p l) = total f l.
Proof.
  intros E. induction l as [| a l IH]; simpl; [reflexivity |].
  destruct (p a) eqn:Ep; simpl; rewrite IH; [reflexivity |].
  rewrite (E a Ep). reflexivity.
Qed.

Lemma coord_snoc (tr : list Event) (e : Event) :
  coord (tr ++ [e]) = if is_coord e then coord tr ++ [e] else coord tr.
Proof.
  unfold coord. rewrite List.filter_app. simpl.
  destruct (is_coord e); [reflexivity | apply app_nil_r].
Qed.

Lemma lookup_insert_cases (ths : list pc) (t t' : nat) (p' q : pc) :
  <[t := p']> ths !! t' = Some q ->
  (t' = t /\ q = p') \/ (t' <> t /\ ths !! t' = Some q).
Proof.
  intros H. destruct (decide (t = t')) as [-> | Hne].
  - left. split; [reflexivity |].
    assert (t' < length ths).
    { apply lookup_lt_Some in H. rewrite length_insert in H. exact H. }
    rewrite list_lookup_insert_eq in H by assumption. congruence.
  - right. rewrite list_lookup_insert_ne in H by assumption. auto.
Qed.

Lemma lookup_snoc_cases (ths : list pc) (t' : nat) (x q : pc) :
  (ths ++ [x]) !! t' = Some q ->
  ths !! t' = Some q \/ (t' = length ths /\ q = x).
Proof.
  intros H. destruct (decide (t' < length ths)) as [Hlt | Hge].
  - rewrite lookup_app_l in H by assumption. auto.
  - right. rewrite lookup_app_r in H by lia.
    destruct (t' - length ths) eqn:E; simpl in H; [| destruct n; discriminate].
    split; [lia | congruence].
Qed.

End Counting.

(** ** The invariant is kept by every step *)

Section ListUpdates.
Local Open Scope nat_scope.

Lemma total_insert_snoc {A} (f : A -> nat) (l : list A) (i : nat) (x y z : A) :
  l !! i = Some x -> total f (<[i := y]> (l ++ [z])) + f x = total f l + f y + f z.
Proof.
  intros H.
  pose proof (total_insert f (l ++ [z]) i x y) as E.
  rewrite total_snoc in E. specialize (E (lookup_app_l_Some _ _ _ _ H)). lia.
Qed.

Lemma lookup_insert_self (ths : list pc) (t : nat) (p p' : pc) :
  ths !! t = Some p -> <[t := p']> ths !! t = Some p'.
Proof. intros H. apply list_lookup_insert_eq. eapply lookup_lt_Some; eauto. Qed.

Lemma lookup_insert_keep (ths : list pc) (t h : nat) (p' q : pc) :
  ths !! h = Some q -> h <> t -> <[t := p']> ths !! h = Some q.
Proof. intros H Hne. rewrite list_lookup_insert_ne by congruence. exact H. Qed.

Lemma lookup_snoc_keep (ths : list pc) (h : nat) (x q : pc) :
  ths !! h = Some q -> (ths ++ [x]) !! h = Some q.
Proof. apply lookup_app_l_Some. Qed.

End ListUpdates.

Ltac lookups :=
  repeat match goal with
  | H : <[_ := _]> _ !! _ = Some _ |- _ =>
      apply lookup_insert_cases in H; destruct H as [[-> ->] | [? H]]
  | H : (_ ++ [_]) !! _ = Some _ |- _ =>
      apply lookup_snoc_cases in H; destruct H as [H | [-> ->]]
  end.

Ltac step_cases H :=
  unfold step, step_pc, serve_loop, Stop, Stop_drain, Stop_func, Stop_exit,
    addShutdownFunc, wg_Done in H;
  simpl in H;
  match type of H with
  | (if ?cr then _ else _) = _ =>
      let Hcr := fresh "Hcr" in destruct cr eqn:Hcr; [discriminate H |]
  end;
  match type of H with
  | match ?ths !! ?t with _ => _ end = _ =>
      let Hp := fresh "Hp" in
      let p := fresh "p" in
      destruct (ths !! t) as [p |] eqn:Hp; [| discriminate H];
      destruct p; simpl in H
  end;
  repeat match type of H with
  | context [match ?x with _ => _ end] =>
      lazymatch x with
      | context [match _ with _ => _ end] => fail
      | _ => let E := fresh "E" in destruct x eqn:E; simpl in H
      end
  end;
  try discriminate H;
  injection H as <-.

(* use the per-goroutine facts of the invariant at every known goroutine *)

Ltac saturate Hl Hb Hsk :=
  repeat match goal with
  | Hq : ?ths !! ?t = Some ?q |- _ =>
      let H1 := fresh "Hlk" in
      let H2 := fresh "Hbd" in
      let H3 := fresh "Hsk" in
      pose proof (Hl t q Hq) as H1;
      pose proof (Hb t q Hq) as H2;
      pose proof (Hsk t q Hq) as H3;
      simpl in H1, H2, H3;
      change (seen (ths !! t = Some q)) in Hq
  end;
  unfold seen in *;
  repeat match goal with
  | H : true = true -> _ |- _ => specialize (H eq_refl)
  | H : Some false = Some false -> _ |- _ => specialize (H eq_refl)
  | H : ?a = ?b -> _, H' : ?a = ?b |- _ => specialize (H H')
  end.

(* the equations of [total] after the step of goroutine [t] *)
Ltac totals Hp :=
  repeat rewrite total_snoc;
  repeat match goal with
  | |- context [total ?f (<[?t := ?y]> (?l ++ [?z]))] =>
      lazymatch goal with
      | _ : total f (<[t := y]> (l ++ [z])) + _ = _ |- _ => fail
      | _ => pose proof (total_insert_snoc f l t _ y z Hp)
      end
  | |- context [total ?f (<[?t := ?y]> ?l)] =>
      lazymatch goal with
      | _ : total f (<[t := y]> l) + _ = _ |- _ => fail
      | _ => pose proof (total_insert f l t _ y Hp)
      end
  end;
  simpl in *.

(* who runs the Once body, and what holds for it *)
Ltac shape_facts Hsh Hp :=
  simpl in Hsh;
  match type of Hsh with
  | (exists _, _) /\ _ =>
      let p0 := fresh "p0" in
      let Hp0 := fresh "Hp0" in
      let Hin := fresh "Hin" in
      let Hok := fresh "Hok" in
      let Hex := fresh "Hex" in
      destruct Hsh as [(p0 & Hp0 & Hin & Hok) Hex];
      try (rewrite Hp in Hp0; injection Hp0 as <-; simpl in Hok)
  | _ /\ _ /\ (exists _, _) /\ _ =>
      let Hcl := fresh "Hcl" in
      let Hw0 := fresh "Hw0" in
      let Hw := fresh "Hw" in
      let Hex := fresh "Hex" in
      destruct Hsh as (Hcl & Hw0 & Hw & Hex)
  | _ /\ _ /\ _ /\ _ =>
      let Hcl := fresh "Hcl" in
      let Hco := fresh "Hco" in
      let Hw := fresh "Hw" in
      let Hex := fresh "Hex" in
      destruct Hsh as (Hcl & Hco & Hw & Hex)
  end.

Section Preservation.
Local Open Scope nat_scope.

Lemma step_inv_lock o t s s' :
  Inv s -> step o t s = Some s' ->
  forall t' p, threads s' !! t' = Some p -> holds_lock p = true ->
               shutdownFuncsM s' = Some t'.
Proof.
  intros HI H.
  destruct s as [cl on fs m w ths tr cr]; destruct HI as [Hl Hlh Hb Hsk Hwg Hbr Hca Hdr Hsh]; simpl in *.
  step_cases H.
  all: simpl; intros t' q Hq Hh; lookups; simpl in *; try discriminate; try reflexivity.
  all: saturate Hl Hb Hsk; try congruence.
Qed.

Lemma step_inv_body o t s s' :
  Inv s -> step o t s = Some s' ->
  forall t' p, threads s' !! t' = Some p -> in_body p = true ->
               shutdownOnce s' = OnceRunning t'.
Proof.
  intros HI H.
  destruct s as [cl on fs m w ths tr cr]; destruct HI as [Hl Hlh Hb Hsk Hwg Hbr Hca Hdr Hsh]; simpl in *.
  step_cases H.
  all: simpl; intros t' q Hq Hh; lookups; simpl in *; try discriminate; try reflexivity.
  all: saturate Hl Hb Hsk; try congruence.
Qed.

Lemma step_inv_skipped o t s s' :
  Inv s -> step o t s = Some s' ->
  forall t' p, threads s' !! t' = Some p -> past_once p = Some false ->
               shutdownOnce s' = OnceDone.
Proof.
  intros HI H.
  destruct s as [cl on fs m w ths tr cr]; destruct HI as [Hl Hlh Hb Hsk Hwg Hbr Hca Hdr Hsh]; simpl in *.
  step_cases H.
  all: simpl; intros t' q Hq Hh; lookups; simpl in *; try discriminate; try reflexivity.
  all: saturate Hl Hb Hsk; try congruence.
Qed.

Lemma step_inv_wg o t s s' :
  Inv s -> step o t s = Some s' -> wg s' = total wg_pending (threads s').
Proof.
  intros HI H.
  destruct s as [cl on fs m w ths tr cr]; destruct HI as [Hl Hlh Hb Hsk Hwg Hbr Hca Hdr Hsh]; simpl in *.
  step_cases H.
  all: simpl; pose proof (total_lookup_le wg_pending _ _ _ Hp) as Hle; totals Hp; try lia.
  all: saturate Hl Hb Hsk; subst; shape_facts Hsh Hp.
  all: destruct_and?; lia.
Qed.

Lemma step_inv_branches o t s s' :
  Inv s -> step o t s = Some s' ->
  total (fun p => b2n (is_branch p)) (threads s')
  = total (fun e => b2n (is_launch e)) (trace s').
Proof.
  intros HI H.
  destruct s as [cl on fs m w ths tr cr]; destruct HI as [Hl Hlh Hb Hsk Hwg Hbr Hca Hdr Hsh]; simpl in *.
  step_cases H.
  all: simpl; pose proof (total_lookup_le wg_pending _ _ _ Hp) as Hle; totals Hp; try lia.
  all: saturate Hl Hb Hsk; subst; shape_facts Hsh Hp.
  all: destruct_and?; try congruence; try lia.
Qed.

Lemma step_inv_calls o t s s' :
  Inv s -> step o t s = Some s' ->
  forall f c,
    total (is_call f c) (trace s') + total (at_PtCall f c) (threads s')
    = total (is_gopart f c) (trace s').
Proof.
  intros HI H.
  destruct s as [cl on fs m w ths tr cr]; destruct HI as [Hl Hlh Hb Hsk Hwg Hbr Hca Hdr Hsh]; simpl in *.
  step_cases H.
  all: simpl; intros f0 c0; specialize (Hca f0 c0); totals Hp; lia.
Qed.

Lemma step_inv_drain o t s s' :
  Inv s -> step o t s = Some s' ->
  forall c,
    total (is_srv_shutdown c) (trace s') + total (at_DrShutdown c) (threads s')
    = total (is_godrain c) (trace s').
Proof.
  intros HI H.
  destruct s as [cl on fs m w ths tr cr]; destruct HI as [Hl Hlh Hb Hsk Hwg Hbr Hca Hdr Hsh]; simpl in *.
  step_cases H.
  all: simpl; intros c0; specialize (Hdr c0); totals Hp; lia.
Qed.

Lemma lookup_insert_snoc_self (ths : list pc) (t : nat) (p p' x : pc) :
  ths !! t = Some p -> <[t := p']> (ths ++ [x]) !! t = Some p'.
Proof.
  intros H. apply list_lookup_insert_eq. rewrite length_app.
  apply lookup_lt_Some in H. lia.
Qed.

Lemma lookup_insert_snoc_keep (ths : list pc) (t h : nat) (p' q x : pc) :
  ths !! h = Some q -> h <> t -> <[t := p']> (ths ++ [x]) !! h = Some q.
Proof.
  intros H Hne. rewrite list_lookup_insert_ne by congruence.
  apply lookup_app_l_Some. exact H.
Qed.

(* goroutine [h] after the step of goroutine [t] *)
Ltac find_thread h t Hp :=
  destruct (decide (h = t)) as [-> | ?];
  [ eexists; split;
    [ first [ eapply lookup_insert_self; exact Hp
            | eapply lookup_insert_snoc_self; exact Hp ] | ]
  | eexists; split;
    [ first [ eapply lookup_insert_keep; [eassumption | assumption]
            | eapply lookup_insert_snoc_keep; [eassumption | assumption] ] | ] ].

Lemma step_inv_lock_held o t s s' :
  Inv s -> step o t s = Some s' ->
  forall h, shutdownFuncsM s' = Some h ->
    exists p, threads s' !! h = Some p /\ holds_lock p = true.
Proof.
  intros HI H.
  destruct s as [cl on fs m w ths tr cr]; destruct HI as [Hl Hlh Hb Hsk Hwg Hbr Hca Hdr Hsh]; simpl in *.
  step_cases H.
  all: simpl; intros h Hm; try discriminate Hm.
  all: try (injection Hm as <-; eexists; split; [eapply lookup_insert_self; exact Hp | reflexivity]).
  all: destruct (Hlh h Hm) as (q & Hq & Hh); find_thread h t Hp; try assumption; try reflexivity.
  all: rewrite Hp in Hq; injection Hq as <-; simpl in Hh; try discriminate Hh.
  all: saturate Hl Hb Hsk; subst; shape_facts Hsh Hp; destruct_and?; congruence.
Qed.

Lemma in_body_holds_lock (p : pc) : in_body p = true -> holds_lock p = true.
Proof. destruct p; simpl; congruence. Qed.

Lemma step_inv_shape o t s s' :
  Inv s -> step o t s = Some s' ->
  match shutdownOnce s' with
  | OnceFresh =>
      shuttingDown s' = false /\ coord (trace s') = [] /\ wg s' = 0
      /\ total (fun p => b2n (executed p)) (threads s') = 0
  | OnceRunning t =>
      (exists p, threads s' !! t = Some p /\ in_body p = true /\ body_ok s' p)
      /\ total (fun p => b2n (executed p)) (threads s') = 1
  | OnceDone =>
      shuttingDown s' = true /\ wg s' = 0
      /\ (exists t p c fs more,
            threads s' !! t = Some p /\ past_once p = Some true
            /\ stop_ctx p = Some c
            /\ coord (trace s') = launched c fs
            /\ shutdownFuncs s' = fs ++ more)
      /\ total (fun p => b2n (executed p)) (threads s') = 1
  end.
Proof.
  intros HI H.
  destruct s as [cl on fs m w ths tr cr]; destruct HI as [Hl Hlh Hb Hsk Hwg Hbr Hca Hdr Hsh]; simpl in *.
  step_cases H.
  all: simpl.
  all: pose proof (total_lookup_le wg_pending _ _ _ Hp) as Hle.
  all: pose proof (total_lookup_le (fun p => b2n (executed p)) _ _ _ Hp) as Hle'.
  all: simpl in Hle, Hle'.
  all: saturate Hl Hb Hsk.
  all: try match goal with ran : bool |- _ => destruct ran; simpl in * end.
  all: try subst on; try (destruct on as [| t0 |]); try congruence.
  all: shape_facts Hsh Hp; simpl.
  (* nothing has started yet *)
  all: try (rewrite ?coord_snoc; simpl; totals Hp; destruct_and?;
            repeat split; solve [assumption | congruence | lia]).
  (* the shutdown is over *)
  all: try (lazymatch type of Hw with ex _ => idtac end;
    destruct Hw as (t1 & p1 & c1 & fs1 & more & Hp1 & Hpast & Hctx & Hco & Hfs);
    split; [congruence |]; split; [lia |]; split; [| totals Hp; lia];
    destruct (decide (t1 = t)) as [-> | Hne];
    [ rewrite Hp in Hp1; injection Hp1 as <-; simpl in Hpast, Hctx;
      first
        [ discriminate
        | injection Hpast as ->; injection Hctx as ->;
          eexists t, _, _, fs1, _;
          split; [eapply lookup_insert_self; exact Hp |];
          simpl; rewrite ?coord_snoc; simpl; repeat split; eassumption ]
    | first
        [ exists t1, p1, c1, fs1, more;
          split; [eapply lookup_insert_keep; eassumption |];
          simpl; rewrite ?coord_snoc; simpl; repeat split; assumption
        | exists t1, p1, c1, fs1, (more ++ [f]);
          split; [eapply lookup_insert_keep; eassumption |];
          simpl; repeat split; try assumption;
          rewrite Hfs, <- app_assoc; reflexivity ] ]).
  (* another goroutine moves while the Once body runs *)
  all: try (lazymatch goal with |- (exists _, _) /\ _ => idtac end;
    split; [| totals Hp; lia];
    destruct (decide (t0 = t)) as [-> | Hne];
    [ rewrite Hp in Hp0; injection Hp0 as <-; discriminate Hin
    | pose proof (Hl _ _ Hp0 (in_body_holds_lock _ Hin));
      first
        [ congruence
        | exists p0;
          split; [first [ eapply lookup_insert_keep; eassumption
                        | eapply lookup_insert_snoc_keep; eassumption ] |];
          split; [assumption |];
          destruct p0; simpl in Hin; try discriminate Hin; simpl in *;
          rewrite ?coord_snoc; simpl; destruct_and?;
          repeat split; solve [assumption | congruence | lia] ] ]).
  (* the goroutine inside the Once body moves *)
  all: try (split;
    [ eexists; split;
      [ first [ eapply lookup_insert_self; exact Hp
              | eapply lookup_insert_snoc_self; exact Hp ] |];
      split; [reflexivity |]; simpl; rewrite ?coord_snoc; simpl;
      destruct_and?
    | totals Hp; lia ]).
  all: try (repeat split; solve [assumption | congruence | lia]).
  - (* close(s.shuttingDown) *)
    match goal with H : coord _ = _ |- _ => rewrite H end. auto.
  - (* go: the drain *)
    match goal with H : coord _ = _ |- _ => rewrite H end. auto.
  - (* range s.shutdownFuncs *)
    split; [assumption |]. exists []. auto.
  - (* the loop is over *)
    match goal with H : exists _, _ |- _ => destruct H as (done & Hco & ->) end.
    rewrite app_nil_r. auto.
  - (* go: one shutdown function *)
    match goal with H : exists _, _ |- _ => destruct H as (done & Hco & ->) end.
    split; [assumption |].
    exists (done ++ [f]). rewrite Hco, <- app_assoc. split; [| reflexivity].
    unfold launched. rewrite map_app. reflexivity.
  - (* the Once is done *)
    destruct Hok as (Hcl & Hco & Hw0).
    split; [assumption |]. split; [assumption |]. split; [| totals Hp; lia].
    exists t, (StUnlock c true), c, fs, [].
    split; [eapply lookup_insert_self; exact Hp |].
    rewrite app_nil_r. auto.
  - (* the deferred Unlock of the call that ran the Once body *)
    destruct Hw as (t1 & p1 & c1 & fs1 & more & Hp1 & Hpast & Hctx & Hco & Hfs).
    split; [assumption |]. split; [assumption |]. split; [| totals Hp; lia].
    destruct (decide (t1 = t)) as [-> | Hne].
    + rewrite Hp in Hp1. injection Hp1 as <-. simpl in Hctx.
      injection Hctx as <-.
      exists t, (StReturned c true), c, fs1, more.
      split; [eapply lookup_insert_self; exact Hp |]. auto.
    + exists t1, p1, c1, fs1, more.
      split; [eapply lookup_insert_keep; eassumption |]. auto.
Qed.
End Preservation.

Section InvariantHolds.
Local Open Scope nat_scope.

Lemma inv_step o t s s' : Inv s -> step o t s = Some s' -> Inv s'.
Proof.
  intros HI H. constructor.
  - eapply step_inv_lock; eassumption.
  - eapply step_inv_lock_held; eassumption.
  - eapply step_inv_body; eassumption.
  - eapply step_inv_skipped; eassumption.
  - eapply step_inv_wg; eassumption.
  - eapply step_inv_branches; eassumption.
  - eapply step_inv_calls; eassumption.
  - eapply step_inv_drain; eassumption.
  - eapply step_inv_shape; eassumption.
Qed.

Lemma inv_run o sched s : Inv s -> Inv (run o sched s).
Proof.
  revert s. induction sched as [| t sched IH]; intros s HI; simpl; [exact HI |].
  apply IH. destruct (step o t s) as [s' |] eqn:E; simpl; [| exact HI].
  eapply inv_step; eassumption.
Qed.
End InvariantHolds.

(** ** The initial state, termination and absence of deadlock *)

Import Server.

Section Liveness.
Local Open Scope nat_scope.

Lemma total_all_zero {A} (f : A -> nat) (l : list A) :
  (forall x, x ∈ l -> f x = 0) -> total f l = 0.
Proof.
  intros H. apply total_zero_Forall. apply Forall_forall. exact H.
Qed.

Lemma inv_init (accept : pc) (callers : list pc) :
  accept = AlServe \/ (exists certFile keyFile, accept = AlServeTLS certFile keyFile) ->
  forallb is_entry callers = true ->
  Inv (with_callers callers (fresh_state accept)).
Proof.
  intros Ha Hc.
  assert (Hall : forall p, p ∈ accept :: callers ->
            holds_lock p = false /\ in_body p = false /\ past_once p = None
            /\ wg_pending p = 0 /\ is_branch p = false /\ executed p = false
            /\ (forall f c, at_PtCall f c p = 0) /\ (forall c, at_DrShutdown c p = 0)).
  { intros p Hp. apply elem_of_cons in Hp. destruct Hp as [-> | Hp].
    - destruct Ha as [-> | (cf & kf & ->)]; repeat split.
    - rewrite forallb_forall in Hc. apply list_elem_of_In in Hp.
      specialize (Hc p Hp). destruct p; try discriminate Hc; repeat split. }
  assert (Hlk : forall t p, (accept :: callers) !! t = Some p -> p ∈ accept :: callers).
  { intros t p H. eapply list_elem_of_lookup_2; eauto. }
  change (with_callers callers (fresh_state accept))
    with (mkState false OnceFresh [] None 0 (accept :: callers) [] false).
  generalize dependent (accept :: callers). clear. intros l Hall Hlk.
  constructor; cbn [threads shutdownFuncsM shutdownOnce wg trace shuttingDown total].
  - intros t p H Hh. apply Hlk, Hall in H. destruct H as (H & _). congruence.
  - discriminate.
  - intros t p H Hh. apply Hlk, Hall in H. destruct H as (_ & H & _). congruence.
  - intros t p H Hh. apply Hlk, Hall in H. destruct H as (_ & _ & H & _). congruence.
  - symmetry. apply (total_all_zero wg_pending l).
    intros p Hp. apply Hall in Hp. tauto.
  - apply (total_all_zero _ l).
    intros p Hp. apply Hall in Hp. destruct Hp as (_ & _ & _ & _ & -> & _). reflexivity.
  - intros f c. apply (total_all_zero _ l).
    intros p Hp. apply Hall in Hp. destruct Hp as (_ & _ & _ & _ & _ & _ & H & _). apply H.
  - intros c. apply (total_all_zero _ l).
    intros p Hp. apply Hall in Hp. destruct Hp as (_ & _ & _ & _ & _ & _ & _ & H). apply H.
  - repeat split. apply (total_all_zero _ l).
    intros p Hp. apply Hall in Hp. destruct Hp as (_ & _ & _ & _ & _ & -> & _). reflexivity.
Qed.

Lemma step_registrations o t s s' :
  step o t s = Some s' -> registrations s' = registrations s.
Proof.
  intros H. destruct s as [cl on fs m w ths tr cr]. unfold registrations.
  step_cases H; simpl; totals Hp; rewrite ?length_app; simpl; lia.
Qed.

Lemma step_measure o t s s' :
  step o t s = Some s' -> measure s' < measure s.
Proof.
  intros H. unfold measure. rewrite (step_registrations _ _ _ _ H).
  assert (Hk : length (shutdownFuncs s) <= registrations s)
    by (unfold registrations; lia).
  generalize dependent (registrations s). intros k Hk.
  destruct s as [cl on fs m w ths tr cr]. simpl in Hk.
  step_cases H; simpl; totals Hp; try lia.
Qed.

(** When goroutine [t] at [p] can take a step. *)
Lemma step_enabled o t s p :
  crashed s = false -> threads s !! t = Some p ->
  match p with
  | StLock _ | AddLock _ => shutdownFuncsM s = None -> is_Some (step o t s)
  | StOnce _ => (forall t', shutdownOnce s <> OnceRunning t') -> is_Some (step o t s)
  | StWait _ => wg s = 0 -> is_Some (step o t s)
  | PtRun f c => behaviour o f c <> Hangs -> is_Some (step o t s)
  | AlExit | StReturned _ _ | BrFinished | AddReturned | Dead => True
  | _ => is_Some (step o t s)
  end.
Proof.
  intros Hcr Hp.
  unfold step, step_pc, serve_loop, Stop, Stop_drain, Stop_func, Stop_exit,
    addShutdownFunc, wg_Done.
  rewrite Hcr, Hp.
  destruct p; simpl; try exact I; try (intros ->); eauto.
  - destruct err as [e |]; [destruct (String.eqb e ErrServerClosed) |]; eauto.
  - intros H. destruct (shutdownOnce s); eauto. exfalso. eapply H. reflexivity.
  - destruct (shuttingDown s); eauto.
  - destruct rest; eauto.
  - destruct (shutdown_result o c); eauto.
  - destruct (close_result o); eauto.
  - intros H. destruct (behaviour o f c); eauto. congruence.
  - destruct (wg s); eauto.
  - destruct (wg s); eauto.
Qed.

Lemma well_behaved_no_hang o f c : well_behaved o -> behaviour o f c <> Hangs.
Proof. intros (_ & H). apply H. Qed.

(** No deadlock: unless every goroutine has ended, one of them can move. *)
Lemma progress o s :
  Inv s -> well_behaved o -> crashed s = false ->
  (exists t p, threads s !! t = Some p /\ finished p = false) ->
  exists t s', step o t s = Some s'.
Proof.
  intros HI Hwb Hcr (t & p & Hp & Hfin).
  assert (Hgo : forall t, is_Some (step o t s) -> exists t s', step o t s = Some s').
  { intros t0 [s' E]. eauto. }
  destruct (shutdownFuncsM s) as [h |] eqn:Hm.
  - destruct (inv_lock_held s HI h Hm) as (q & Hq & Hh).
    pose proof (step_enabled o h s q Hcr Hq) as Hen.
    destruct q; simpl in Hh; try discriminate Hh; simpl in Hen;
      try (apply (Hgo h); exact Hen).
    + (* waiting for the Once *)
      apply (Hgo h), Hen. intros t' Ho.
      pose proof (inv_shape s HI) as Hsh. rewrite Ho in Hsh.
      destruct Hsh as [(p0 & Hp0 & Hin & _) _].
      pose proof (inv_lock s HI t' p0 Hp0 (in_body_holds_lock _ Hin)) as E.
      rewrite Hm in E. injection E as <-. rewrite Hq in Hp0. injection Hp0 as <-.
      discriminate Hin.
    + (* wg.Wait() *)
      destruct (wg s) eqn:Hw; [apply (Hgo h), Hen; reflexivity |].
      pose proof (inv_wg s HI) as Hwg. rewrite Hw in Hwg.
      destruct (total_pos_lookup wg_pending (threads s)) as (i & x & Hx & Hpos);
        [lia |].
      pose proof (step_enabled o i s x Hcr Hx) as Hex.
      pose proof (inv_body s HI i x Hx) as Hbi.
      pose proof (inv_body s HI h _ Hq eq_refl) as Hbh.
      destruct x; simpl in Hpos; try lia; simpl in Hex, Hbi;
        try (apply (Hgo i); exact Hex);
        try (apply (Hgo i), Hex, well_behaved_no_hang, Hwb);
        specialize (Hbi eq_refl); rewrite Hbh in Hbi; injection Hbi as <-;
        rewrite Hq in Hx; discriminate Hx.
  - pose proof (step_enabled o t s p Hcr Hp) as Hen.
    pose proof (inv_lock s HI t p Hp) as Hlk. rewrite Hm in Hlk.
    destruct p; simpl in Hfin; try discriminate Hfin; simpl in Hen, Hlk;
      try (apply (Hgo t); exact Hen);
      try (specialize (Hlk eq_refl); discriminate Hlk);
      try (apply (Hgo t), Hen; assumption);
      apply (Hgo t), Hen, well_behaved_no_hang, Hwb.
Qed.

Lemma sound_step o t s s' :
  Inv s -> no_panic o -> sound s -> step o t s = Some s' -> sound s'.
Proof.
  intros HI (Hclose & Hbeh) (Hcr' & Hd) H.
  destruct s as [cl on fs m w ths tr cr]; destruct HI as [Hl Hlh Hb Hsk Hwg Hbr Hca Hdr Hsh]; simpl in *.
  unfold sound.
  step_cases H.
  all: simpl.
  all: pose proof (total_lookup_le wg_pending _ _ _ Hp) as Hle.
  all: pose proof (total_lookup_le (fun p => b2n (doomed p)) _ _ _ Hp) as Hle'.
  all: simpl in Hle, Hle'.
  all: try (split; [reflexivity |]; totals Hp; lia).
  all: try lia.
  all: try congruence.
  all: try match goal with E : behaviour _ ?f ?c = _ |- _ => destruct (Hbeh f c E) end.
  all: saturate Hl Hb Hsk; subst; shape_facts Hsh Hp; destruct_and?; congruence.
Qed.

Lemma sound_init (accept : pc) (callers : list pc) :
  accept = AlServe \/ (exists certFile keyFile, accept = AlServeTLS certFile keyFile) ->
  forallb is_entry callers = true ->
  sound (with_callers callers (fresh_state accept)).
Proof.
  intros Ha Hc. split; [reflexivity |].
  change (threads (with_callers callers (fresh_state accept))) with (accept :: callers).
  apply total_all_zero. intros p Hp. apply elem_of_cons in Hp. destruct Hp as [-> | Hp].
  - destruct Ha as [-> | (cf & kf & ->)]; reflexivity.
  - rewrite forallb_forall in Hc. apply list_elem_of_In in Hp.
    specialize (Hc p Hp). destruct p; try discriminate Hc; reflexivity.
Qed.

Lemma sound_run o sched s :
  Inv s -> no_panic o -> sound s -> sound (run o sched s).
Proof.
  revert s. induction sched as [| t sched IH]; intros s HI Hn Hs; simpl; [exact Hs |].
  destruct (step o t s) as [s' |] eqn:E; simpl; [| apply IH; assumption].
  apply IH; [eapply inv_step; eassumption | assumption |].
  eapply sound_step; eassumption.
Qed.

(** Every call and every goroutine comes to its end: from any state a
    well-behaved world can reach, some schedule ends them all, and no
    schedule takes more than [measure s] steps. *)
Lemma all_finish o s :
  Inv s -> well_behaved o -> sound s ->
  exists sched,
    let s' := run o sched s in
    Forall (fun p => finished p = true) (threads s') /\ sound s'.
Proof.
  remember (measure s) as n eqn:Hn. revert s Hn.
  induction n as [n IH] using lt_wf_ind. intros s Hn HI Hwb Hs.
  destruct (decide (Forall (fun p => finished p = true) (threads s))) as [Hall | Hex].
  - exists []. simpl. split; assumption.
  - apply not_Forall_Exists in Hex; [| intros p; apply _].
    apply Exists_exists in Hex. destruct Hex as (p & Hin & Hp). simpl in Hp.
    apply list_elem_of_lookup in Hin. destruct Hin as (t & Ht).
    destruct (progress o s HI Hwb (proj1 Hs)) as (t' & s' & Hstep).
    { exists t, p. split; [exact Ht |]. destruct (finished p); congruence. }
    destruct (IH (measure s')) with (s := s') as (sched & Hfin & Hs').
    + subst n. eapply step_measure; eassumption.
    + reflexivity.
    + eapply inv_step; eassumption.
    + exact Hwb.
    + eapply sound_step; [eassumption | apply Hwb | eassumption | eassumption].
    + exists (t' :: sched). simpl. rewrite Hstep. simpl. split; assumption.
Qed.

(** A schedule takes at most [measure s] steps. *)
Lemma moves_bounded o sched s : moves o sched s + measure (run o sched s) <= measure s.
Proof.
  revert s. induction sched as [| t sched IH]; intros s; simpl; [lia |].
  destruct (step o t s) as [s' |] eqn:E; simpl; [| apply IH].
  pose proof (step_measure o t s s' E). specialize (IH s'). lia.
Qed.

(** A run that has come to a halt has brought every goroutine to its end. *)
Lemma halted_finished o s :
  Inv s -> well_behaved o -> sound s -> halted o s ->
  Forall (fun p => finished p = true) (threads s).
Proof.
  intros HI Hwb Hs Hh.
  destruct (decide (Forall (fun p => finished p = true) (threads s))) as [Hall | Hex];
    [exact Hall |].
  apply not_Forall_Exists in Hex; [| intros p; apply _].
  apply Exists_exists in Hex. destruct Hex as (p & Hin & Hp). simpl in Hp.
  apply list_elem_of_lookup in Hin. destruct Hin as (t & Ht).
  destruct (progress o s HI Hwb (proj1 Hs)) as (t' & s' & Hstep).
  { exists t, p. split; [exact Ht |]. destruct (finished p); congruence. }
  rewrite (Hh t') in Hstep. discriminate Hstep.
Qed.

Lemma finished_halted o s :
  Forall (fun p => finished p = true) (threads s) -> halted o s.
Proof.
  intros Hfin t. unfold step. destruct (crashed s); [reflexivity |].
  destruct (threads s !! t) as [p |] eqn:Hp; [| reflexivity].
  rewrite Forall_forall in Hfin.
  assert (Hf : finished p = true) by (apply Hfin; eapply list_elem_of_lookup_2; eauto).
  destruct p; simpl in Hf; try discriminate Hf; reflexivity.
Qed.

Lemma run_app o sched1 sched2 s :
  run o (sched1 ++ sched2) s = run o sched2 (run o sched1 s).
Proof. unfold run. apply fold_left_app. Qed.

Lemma run_measure o sched s : measure (run o sched s) <= measure s.
Proof. pose proof (moves_bounded o sched s). lia. Qed.

Lemma run_halted o sched s : halted o s -> run o sched s = s.
Proof.
  intros Hh. induction sched as [| t sched IH]; simpl; [reflexivity |].
  rewrite (Hh t). exact IH.
Qed.

(** A schedule that names a goroutine able to move makes the measure drop. *)
Lemma run_measure_drop o sched s t :
  t ∈ sched -> is_Some (step o t s) -> measure (run o sched s) < measure s.
Proof.
  revert s. induction sched as [| t0 sched IH]; intros s Hin Hs.
  - apply elem_of_nil in Hin. contradiction.
  - simpl. destruct (step o t0 s) as [s1 |] eqn:E; simpl.
    + pose proof (step_measure o t0 s s1 E). pose proof (run_measure o sched s1). lia.
    + apply IH; [| exact Hs]. apply elem_of_cons in Hin.
      destruct Hin as [-> | Hin]; [| exact Hin].
      rewrite E in Hs. destruct Hs as [x Hx]. discriminate Hx.
Qed.

(** Goroutines are launched at the price of steps. *)
Lemma step_room o t s s' :
  step o t s = Some s' ->
  length (threads s') + measure s' <= length (threads s) + measure s.
Proof.
  intros H. pose proof (step_measure o t s s' H) as Hm.
  assert (length (threads s') <= S (length (threads s))).
  { destruct s as [cl on fs m w ths tr cr].
    step_cases H; simpl; rewrite ?length_insert, ?length_app; simpl; lia. }
  assert (length (threads s') = S (length (threads s)) -> measure s' + 2 <= measure s).
  { clear Hm. unfold measure. rewrite (step_registrations _ _ _ _ H).
    remember (registrations s) as k eqn:Ek.
    assert (Hk : length (shutdownFuncs s) <= k)
      by (subst k; unfold registrations; lia).
    clear Ek.
    destruct s as [cl on fs m w ths tr cr]. simpl in Hk.
    step_cases H; simpl; rewrite ?length_insert, ?length_app; simpl;
      intros Hlen; try lia; totals Hp; lia. }
  lia.
Qed.

Lemma run_room o sched s :
  length (threads (run o sched s)) + measure (run o sched s)
  <= length (threads s) + measure s.
Proof.
  revert s. induction sched as [| t sched IH]; intros s; simpl; [lia |].
  destruct (step o t s) as [s' |] eqn:E; simpl; [| apply IH].
  pose proof (step_room o t s s' E). specialize (IH s'). lia.
Qed.

(** Taking turns is enough: after [measure s] rounds over enough goroutine
    numbers, every goroutine has come to its end. *)
Lemma round_robin_finishes o s n k :
  Inv s -> well_behaved o -> sound s ->
  length (threads s) + measure s <= n -> measure s <= k ->
  let s' := run o (round_robin n k) s in
  Forall (fun p => finished p = true) (threads s') /\ sound s'.
Proof.
  revert s. induction k as [| k IH]; intros s HI Hwb Hs Hn Hk;
    destruct (decide (Forall (fun p => finished p = true) (threads s))) as [Hall | Hex];
    cbv zeta.
  - rewrite run_halted by (apply finished_halted; exact Hall). split; assumption.
  - exfalso. apply not_Forall_Exists in Hex; [| intros p; apply _].
    apply Exists_exists in Hex. destruct Hex as (p & Hin & Hp). simpl in Hp.
    apply list_elem_of_lookup in Hin. destruct Hin as (t & Ht).
    destruct (progress o s HI Hwb (proj1 Hs)) as (t' & s1 & Hstep).
    { exists t, p. split; [exact Ht |]. destruct (finished p); congruence. }
    pose proof (step_measure o t' s s1 Hstep). lia.
  - rewrite run_halted by (apply finished_halted; exact Hall). split; assumption.
  - apply not_Forall_Exists in Hex; [| intros p; apply _].
    apply Exists_exists in Hex. destruct Hex as (p & Hin & Hp). simpl in Hp.
    apply list_elem_of_lookup in Hin. destruct Hin as (t & Ht).
    destruct (progress o s HI Hwb (proj1 Hs)) as (t' & s1 & Hstep).
    { exists t, p. split; [exact Ht |]. destruct (finished p); congruence. }
    assert (Ht' : t' < length (threads s)).
    { unfold step in Hstep. destruct (crashed s); [discriminate |].
      destruct (threads s !! t') eqn:E; [| discriminate].
      eapply lookup_lt_Some. exact E. }
    change (round_robin n (S k)) with (seq 0 n ++ round_robin n k)%list.
    rewrite run_app.
    assert (Hdrop : measure (run o (seq 0 n) s) < measure s).
    { apply (run_measure_drop o (seq 0 n) s t'); [| eauto].
      apply elem_of_seq. lia. }
    pose proof (run_room o (seq 0 n) s).
    apply IH; [apply inv_run; exact HI | exact Hwb | | lia | lia].
    apply sound_run; [exact HI | apply Hwb | exact Hs].
Qed.

End Liveness.

(** ** The order of the coordinator's events *)

Section Coordination.
Local Open Scope nat_scope.


Lemma total_map {A B} (g : B -> nat) (h : A -> B) (l : list A) :
  total g (map h l) = total (fun x => g (h x)) l.
Proof. induction l as [| a l IH]; simpl; [reflexivity | rewrite IH; reflexivity]. Qed.

Lemma total_const_zero {A} (l : list A) : total (fun _ => 0) l = 0.
Proof. induction l; simpl; auto. Qed.


(** The coordinator's events: nothing, then the close of the channel, then
    the launches. *)
Lemma coord_cases s :
  Inv s ->
  (shuttingDown s = false /\ coord (trace s) = [])
  \/ (shuttingDown s = true
      /\ (coord (trace s) = [EvChanClose]
          \/ exists c fs, coord (trace s) = launched c fs)).
Proof.
  intros HI. pose proof (inv_shape s HI) as Hsh.
  destruct (shutdownOnce s) as [| t |].
  - left. tauto.
  - destruct Hsh as [(p & Hp & Hin & Hok) _].
    destruct p; simpl in Hin; try discriminate Hin; simpl in Hok.
    all: try (left; tauto).
    all: try (right; split; [tauto |]; left; tauto).
    all: try (right; split; [tauto |]; right; eexists _, _; apply Hok).
    all: destruct Hok as (Hcl & done & Hco & _); right; split; [assumption |];
      right; eauto.
  - destruct Hsh as (Hcl & _ & (t & p & c & fs & more & _ & _ & _ & Hco & _) & _).
    right. split; [assumption |]. right. eauto.
Qed.

Lemma total_close_launched c fs : total is_close (launched c fs) = 1.
Proof.
  unfold launched. simpl. rewrite total_map. simpl. rewrite total_const_zero. reflexivity.
Qed.

Lemma close_count s : Inv s -> total is_close (trace s) = b2n (shuttingDown s).
Proof.
  intros HI.
  rewrite <- (total_filter is_close is_coord (trace s))
    by (intros [] E; simpl in *; congruence).
  fold (coord (trace s)).
  destruct (coord_cases s HI) as [(-> & ->) | (-> & [-> | (c & fs & ->)])];
    [reflexivity | reflexivity | apply total_close_launched].
Qed.

Lemma close_first s :
  Inv s ->
  forall pre e post,
    trace s = (pre ++ e :: post)%list -> is_launch e = true -> EvChanClose ∈ pre.
Proof.
  intros HI pre e post Htr He.
  assert (Hc : coord (trace s) = (coord pre ++ e :: coord post)%list).
  { rewrite Htr. unfold coord. rewrite List.filter_app. simpl.
    destruct e; simpl in He; try discriminate He; reflexivity. }
  assert (Hhead : forall rest, coord (trace s) = EvChanClose :: rest -> EvChanClose ∈ pre).
  { intros rest E. rewrite E in Hc. destruct (coord pre) as [| x l] eqn:Ep.
    - simpl in Hc. injection Hc as <- _. discriminate He.
    - simpl in Hc. injection Hc as <- _.
      apply list_elem_of_In. apply (proj1 (List.filter_In is_coord EvChanClose pre)).
      unfold coord in Ep. rewrite Ep. left. reflexivity. }
  destruct (coord_cases s HI) as [(_ & E) | (_ & [E | (c & fs & E)])].
  - rewrite E in Hc. destruct (coord pre); discriminate Hc.
  - eapply Hhead. exact E.
  - eapply Hhead. exact E.
Qed.

Lemma step_closed o t s s' :
  step o t s = Some s' -> shuttingDown s = true -> shuttingDown s' = true.
Proof.
  intros H Hc. destruct s as [cl on fs m w ths tr cr]. simpl in Hc. subst cl.
  step_cases H; reflexivity.
Qed.

Lemma closed_forever o sched s :
  shuttingDown s = true -> shuttingDown (run o sched s) = true.
Proof.
  revert s. induction sched as [| t sched IH]; intros s Hc; simpl; [exact Hc |].
  apply IH. destruct (step o t s) as [s' |] eqn:E; simpl; [| exact Hc].
  eapply step_closed; eassumption.
Qed.

(** A call of [Stop] is past the Once only when the Once is done. *)
Lemma past_once_done s t p ran :
  Inv s -> threads s !! t = Some p -> past_once p = Some ran ->
  shutdownOnce s = OnceDone.
Proof.
  intros HI Hp Hpast. destruct ran; [| eapply inv_skipped; eassumption].
  pose proof (inv_shape s HI) as Hsh.
  pose proof (total_lookup_le (fun p => b2n (executed p)) _ _ _ Hp) as Hle.
  assert (He : executed p = true).
  { unfold executed. rewrite Hpast. apply orb_true_r. }
  cbv beta in Hle. rewrite He in Hle. simpl in Hle.
  destruct (shutdownOnce s) as [| t0 |]; [| | reflexivity].
  - destruct Hsh as (_ & _ & _ & H0). lia.
  - destruct Hsh as [(p0 & Hp0 & Hin & _) H1].
    assert (t0 <> t).
    { intros ->. rewrite Hp in Hp0. injection Hp0 as <-.
      destruct p; simpl in Hin, Hpast; congruence. }
    pose proof (total_lookup2_le (fun p => b2n (executed p)) _ _ _ _ _ H Hp0 Hp) as H2.
    assert (He0 : executed p0 = true) by (unfold executed; rewrite Hin; reflexivity).
    cbv beta in H2. rewrite He, He0 in H2. simpl in H2. lia.
Qed.

(** Once the Once is done it stays done, and nothing is launched any more. *)
Lemma step_after_done o t s s' :
  Inv s -> step o t s = Some s' -> shutdownOnce s = OnceDone ->
  shutdownOnce s' = OnceDone /\ coord (trace s') = coord (trace s).
Proof.
  intros HI H Hd.
  destruct s as [cl on fs m w ths tr cr]; destruct HI as [Hl Hlh Hb Hsk Hwg Hbr Hca Hdr Hsh]; simpl in *.
  subst on.
  step_cases H; simpl; rewrite ?coord_snoc; simpl; try (split; reflexivity).
  all: saturate Hl Hb Hsk; congruence.
Qed.

Lemma run_after_done o sched s :
  Inv s -> shutdownOnce s = OnceDone ->
  shutdownOnce (run o sched s) = OnceDone
  /\ coord (trace (run o sched s)) = coord (trace s).
Proof.
  revert s. induction sched as [| t sched IH]; intros s HI Hd; simpl; [auto |].
  destruct (step o t s) as [s' |] eqn:E; simpl; [| apply IH; assumption].
  destruct (step_after_done o t s s' HI E Hd) as (Hd' & Hc').
  rewrite <- Hc'. apply IH; [eapply inv_step; eassumption | assumption].
Qed.

(** The two panics of the coordinator itself cannot happen: the channel is
    open when [close] is reached, and the WaitGroup counter is positive when
    a deferred [wg.Done()] runs. *)
Lemma close_finds_channel_open s t c :
  Inv s -> threads s !! t = Some (StClose c) -> shuttingDown s = false.
Proof.
  intros HI Hp. pose proof (inv_shape s HI) as Hsh.
  rewrite (inv_body s HI t _ Hp eq_refl) in Hsh.
  destruct Hsh as [(p & Hp' & _ & Hok) _]. rewrite Hp in Hp'. injection Hp' as <-.
  apply Hok.
Qed.

Lemma Done_finds_counter_positive s t p :
  Inv s -> threads s !! t = Some p -> p = BrDone \/ p = Unwinding -> 0 < wg s.
Proof.
  intros HI Hp Hc. rewrite (inv_wg s HI).
  pose proof (total_lookup_le wg_pending _ _ _ Hp) as Hle.
  destruct Hc as [-> | ->]; simpl in Hle; lia.
Qed.

End Coordination.

(** ** Stop: one shutdown, whatever the number of calls *)

Section ExactlyOnce.
Local Open Scope nat_scope.

(** A call of [Stop] stays a call of [Stop] with the context it was given. *)
Lemma stop_call_step o t s s' i p c :
  Inv s -> step o t s = Some s' ->
  threads s !! i = Some p -> stop_ctx p = Some c ->
  exists p', threads s' !! i = Some p' /\ stop_ctx p' = Some c.
Proof.
  intros HI H Hi Hc.
  destruct s as [cl on fs m w ths tr cr]; destruct HI as [Hl Hlh Hb Hsk Hwg Hbr Hca Hdr Hsh]; simpl in *.
  destruct (decide (i = t)) as [-> | Hne].
  - step_cases H; try rewrite Hp in Hi; injection Hi as <-; simpl in Hc;
      try discriminate Hc; injection Hc as <-; simpl.
    all: try (eexists; split;
              [ first [ eapply lookup_insert_self; exact Hp
                      | eapply lookup_insert_snoc_self; exact Hp ] | reflexivity ]).
    saturate Hl Hb Hsk; subst; shape_facts Hsh Hp. destruct_and?; congruence.
  - exists p. split; [| exact Hc].
    step_cases H; simpl;
      first [ eapply lookup_insert_keep; eassumption
            | eapply lookup_insert_snoc_keep; eassumption ].
Qed.

Lemma stop_call_run o sched s i p c :
  Inv s -> threads s !! i = Some p -> stop_ctx p = Some c ->
  exists p', threads (run o sched s) !! i = Some p' /\ stop_ctx p' = Some c.
Proof.
  revert s p. induction sched as [| t sched IH]; intros s p HI Hi Hc; simpl; [eauto |].
  destruct (step o t s) as [s' |] eqn:E; simpl; [| eapply IH; eassumption].
  destruct (stop_call_step o t s s' i p c HI E Hi Hc) as (p' & Hi' & Hc').
  eapply IH; [eapply inv_step; eassumption | eassumption | eassumption].
Qed.

Lemma finished_stop_returned p c :
  finished p = true -> stop_ctx p = Some c -> exists ran, p = StReturned c ran.
Proof.
  destruct p; simpl; intros Hf Hc; try discriminate; injection Hc as <-. eauto.
Qed.

Lemma executed_le_one s : Inv s -> total (fun p => b2n (executed p)) (threads s) <= 1.
Proof.
  intros HI. pose proof (inv_shape s HI) as Hsh.
  destruct (shutdownOnce s); destruct_and?; lia.
Qed.

Lemma done_facts s :
  Inv s -> shutdownOnce s = OnceDone ->
  total (fun p => b2n (executed p)) (threads s) = 1
  /\ total wg_pending (threads s) = 0
  /\ shuttingDown s = true.
Proof.
  intros HI Hd. pose proof (inv_shape s HI) as Hsh. rewrite Hd in Hsh.
  destruct Hsh as (Hcl & Hw & _ & Hex). pose proof (inv_wg s HI). repeat split; try assumption.
  lia.
Qed.

(** C1: whatever the number of calls of [Stop], whatever else is going on,
    and however the goroutines are scheduled: at most one call runs the
    shutdown algorithm; a call is past it only when the one run is complete
    (the Once is done and every launched goroutine has signalled the
    WaitGroup); the channel given by [Done] is closed at most once, before
    anything is launched, and stays closed; no run takes more than
    [measure s] steps; and in a world where the shutdown functions return,
    goroutines taking turns come to a halt, and when a run has halted every
    call of [Stop] has returned, exactly one of them having run the
    algorithm. *)
Theorem Stop_runs_shutdown_exactly_once
    (o : Oracle) (accept : pc) (callers : list pc) (sched : list nat)
    (Haccept : accept = AlServe
               \/ exists certFile keyFile, accept = AlServeTLS certFile keyFile)
    (Hcallers : forallb is_entry callers = true) :
  let s := run o sched (with_callers callers (fresh_state accept)) in
  total (fun p => b2n (executed p)) (threads s) <= 1
  /\ (forall t p ran,
        threads s !! t = Some p -> past_once p = Some ran ->
        shutdownOnce s = OnceDone
        /\ total (fun p => b2n (executed p)) (threads s) = 1
        /\ total wg_pending (threads s) = 0
        /\ Done s = true)
  /\ total is_close (trace s) = b2n (Done s)
  /\ (forall pre e post,
        trace s = (pre ++ e :: post)%list -> is_launch e = true ->
        EvChanClose ∈ pre)
  /\ (Done s = true ->
      forall sched',
        Done (run o sched' s) = true
        /\ total is_close (trace (run o sched' s)) = 1)
  /\ (forall sched', moves o sched' s <= measure s)
  /\ (well_behaved o ->
      (forall n k,
         length (threads s) + measure s <= n -> measure s <= k ->
         halted o (run o (round_robin n k) s))
      /\ forall sched',
           let s' := run o sched' s in
           halted o s' ->
           crashed s' = false
           /\ Forall (fun p => finished p = true) (threads s')
           /\ (forall i c, callers !! i = Some (StLock c) ->
                 exists ran, threads s' !! (S i) = Some (StReturned c ran))
           /\ ((exists i c, callers !! i = Some (StLock c)) ->
               total (fun p => b2n (executed p)) (threads s') = 1)).
Proof.
  intros s.
  assert (HI0 : Inv (with_callers callers (fresh_state accept)))
    by (apply inv_init; assumption).
  assert (HI : Inv s) by (apply inv_run; exact HI0).
  split; [apply executed_le_one; exact HI |].
  split.
  { intros t p ran Hp Hpast.
    pose proof (past_once_done s t p ran HI Hp Hpast) as Hd.
    split; [exact Hd |]. apply done_facts; assumption. }
  split; [apply close_count; exact HI |].
  split; [apply close_first; exact HI |].
  split.
  { intros Hc sched'.
    pose proof (closed_forever o sched' s Hc) as Hc'.
    split; [exact Hc' |].
    rewrite (close_count (run o sched' s)) by (apply inv_run; exact HI).
    rewrite Hc'. reflexivity. }
  split; [intros sched'; pose proof (moves_bounded o sched' s); lia |].
  intros Hwb.
  assert (Hs : sound s).
  { apply sound_run; [exact HI0 | apply Hwb |]. apply sound_init; assumption. }
  split.
  { intros n k Hn Hk. apply finished_halted.
    apply (round_robin_finishes o s n k HI Hwb Hs Hn Hk). }
  intros sched' s' Hh.
  assert (HI' : Inv s') by (apply inv_run; exact HI).
  assert (Hs' : sound s') by (apply sound_run; [exact HI | apply Hwb | exact Hs]).
  pose proof (halted_finished o s' HI' Hwb Hs' Hh) as Hfin.
  assert (Hret : forall i c, callers !! i = Some (StLock c) ->
            exists ran, threads s' !! (S i) = Some (StReturned c ran)).
  { intros i c Hi.
    destruct (stop_call_run o (sched ++ sched') _ (S i) (StLock c) c HI0)
      as (p' & Hp' & Hc'); [exact Hi | reflexivity |].
    rewrite run_app in Hp'. fold s in Hp'. fold s' in Hp'.
    rewrite Forall_forall in Hfin.
    assert (Hf : finished p' = true).
    { apply Hfin. eapply list_elem_of_lookup_2. exact Hp'. }
    destruct (finished_stop_returned p' c Hf Hc') as (ran & ->). eauto. }
  split; [apply Hs' |]. split; [exact Hfin |]. split; [exact Hret |].
  intros (i & c & Hi). destruct (Hret i c Hi) as (ran & Hp).
  apply done_facts; [exact HI' |].
  eapply past_once_done; [exact HI' | exact Hp | reflexivity].
Qed.

End ExactlyOnce.

Lemma Stop_runs_shutdown_exactly_once_witness :
  let s := run calm (round_robin 8 20)
             (with_callers [AddLock 7; StLock ctx10; StLock ctx10; AddLock 8]
                (fresh_state AlServe)) in
  (total (fun p => b2n (executed p)) (threads s) <= 1)%nat
  /\ (forall t p ran,
        threads s !! t = Some p -> past_once p = Some ran ->
        shutdownOnce s = OnceDone
        /\ total (fun p => b2n (executed p)) (threads s) = 1%nat
        /\ total wg_pending (threads s) = 0%nat
        /\ Done s = true)
  /\ total is_close (trace s) = b2n (Done s)
  /\ (forall pre e post,
        trace s = (pre ++ e :: post)%list -> is_launch e = true ->
        EvChanClose ∈ pre)
  /\ (Done s = true ->
      forall sched',
        Done (run calm sched' s) = true
        /\ total is_close (trace (run calm sched' s)) = 1%nat)
  /\ (forall sched', (moves calm sched' s <= measure s)%nat)
  /\ (well_behaved calm ->
      (forall n k,
         (length (threads s) + measure s <= n)%nat -> (measure s <= k)%nat ->
         halted calm (run calm (round_robin n k) s))
      /\ forall sched',
           let s' := run calm sched' s in
           halted calm s' ->
           crashed s' = false
           /\ Forall (fun p => finished p = true) (threads s')
           /\ (forall i c,
                 [AddLock 7; StLock ctx10; StLock ctx10; AddLock 8] !! i = Some (StLock c) ->
                 exists ran, threads s' !! (S i) = Some (StReturned c ran))
           /\ ((exists i c,
                  [AddLock 7; StLock ctx10; StLock ctx10; AddLock 8] !! i = Some (StLock c)) ->
               total (fun p => b2n (executed p)) (threads s') = 1%nat)).
Proof.
  apply (Stop_runs_shutdown_exactly_once calm AlServe
           [AddLock 7; StLock ctx10; StLock ctx10; AddLock 8] (round_robin 8 20)).
  - left. reflexivity.
  - reflexivity.
Defined.

Example taking_turns_ends_the_shutdown :
  let s0 := with_callers [AddLock 7; StLock ctx10; StLock ctx10; AddLock 8]
              (fresh_state AlServe) in
  measure s0 = 128%nat
  /\ moves calm (round_robin 133 128) s0 = 29%nat
  /\ threads (run calm (round_robin 133 128) s0)
     = [AlExit; AddReturned; StReturned ctx10 true; StReturned ctx10 false;
        AddReturned; BrFinished; BrFinished].
Proof. vm_compute. repeat split. Qed.

Example calm_is_well_behaved : well_behaved calm.
Proof. repeat split; intros; discriminate. Qed.

Example two_Stop_calls_one_shutdown :
  let s := run calm (round_robin 8 20)
             (with_callers [AddLock 7; StLock ctx10; StLock ctx10; AddLock 8]
                (fresh_state AlServe)) in
  threads s = [AlExit; AddReturned; StReturned ctx10 true; StReturned ctx10 false;
               AddReturned; BrFinished; BrFinished]
  /\ trace s = [EvChanClose; EvGoDrain ctx10; EvSrvShutdown ctx10;
                EvGoPart 7 ctx10; EvCall 7 ctx10]
  /\ shutdownFuncs s = [7; 8]%nat.
Proof. repeat split. Qed.

(** ** Stop: what has happened when it returns *)

Section Branches.
Local Open Scope nat_scope.








Lemma crashed_stuck o t s : crashed s = true -> step o t s = None.
Proof. intros H. unfold step. rewrite H. reflexivity. Qed.

Lemma run_crashed o sched s : crashed s = true -> run o sched s = s.
Proof.
  intros H. induction sched as [| t sched IH]; simpl; [reflexivity |].
  rewrite crashed_stuck by exact H. exact IH.
Qed.

End Branches.



(** ** addShutdownFunc and the mutex *)

Section Registration.
Local Open Scope nat_scope.

Lemma step_other o t s s' i p :
  step o t s = Some s' -> i <> t -> threads s !! i = Some p ->
  threads s' !! i = Some p.
Proof.
  intros H Hne Hi. destruct s as [cl on fs m w ths tr cr]. simpl in *.
  step_cases H; simpl;
    first [ eapply lookup_insert_keep; eassumption
          | eapply lookup_insert_snoc_keep; eassumption ].
Qed.

Lemma step_AddLock o t s f :
  crashed s = false -> threads s !! t = Some (AddLock f) ->
  step o t s = match shutdownFuncsM s with
               | None => Some (goto t (AddAppend f) (with_shutdownFuncsM (Some t) s))
               | Some _ => None
               end.
Proof. intros Hcr Hp. unfold step. rewrite Hcr, Hp. reflexivity. Qed.

Lemma step_AddAppend o t s f :
  crashed s = false -> threads s !! t = Some (AddAppend f) ->
  step o t s
  = Some (goto t AddUnlock (with_shutdownFuncs (shutdownFuncs s ++ [f]) s)).
Proof. intros Hcr Hp. unfold step. rewrite Hcr, Hp. reflexivity. Qed.

Lemma step_AddUnlock o t s :
  crashed s = false -> threads s !! t = Some AddUnlock ->
  step o t s = Some (goto t AddReturned (with_shutdownFuncsM None s)).
Proof. intros Hcr Hp. unfold step. rewrite Hcr, Hp. reflexivity. Qed.

(** C7, as amended: [addShutdownFunc] takes the mutex that [Stop] holds from
    its first statement to its return, so a registration blocks exactly
    while the mutex is held, in particular for as long as a call of [Stop]
    is running the shutdown algorithm; once it has the mutex it appends and
    returns without blocking; and a function appended after the shutdown has
    run is never launched. *)
Theorem addShutdownFunc_waits_for_the_mutex
    (o : Oracle) (accept : pc) (callers : list pc) (sched : list nat)
    (Haccept : accept = AlServe
               \/ exists certFile keyFile, accept = AlServeTLS certFile keyFile)
    (Hcallers : forallb is_entry callers = true) :
  let s := run o sched (with_callers callers (fresh_state accept)) in
  (forall t f,
     crashed s = false -> threads s !! t = Some (AddLock f) ->
     (step o t s = None <-> shutdownFuncsM s <> None)
     /\ ((exists t' p, threads s !! t' = Some p /\ in_body p = true) ->
         step o t s = None))
  /\ (forall t f,
        crashed s = false -> threads s !! t = Some (AddAppend f) ->
        exists s', step o t s = Some s'
                   /\ shutdownFuncs s' = (shutdownFuncs s ++ [f])%list
                   /\ threads s' !! t = Some AddUnlock)
  /\ (forall t,
        crashed s = false -> threads s !! t = Some AddUnlock ->
        exists s', step o t s = Some s'
                   /\ shutdownFuncsM s' = None
                   /\ threads s' !! t = Some AddReturned)
  /\ (shutdownOnce s = OnceDone ->
      forall sched', coord (trace (run o sched' s)) = coord (trace s)).
Proof.
  intros s.
  assert (HI : Inv s) by (apply inv_run, inv_init; assumption).
  split; [| split; [| split]].
  - intros t f Hcr Hp. rewrite (step_AddLock o t s f Hcr Hp). split.
    + destruct (shutdownFuncsM s); split; congruence.
    + intros (t' & p & Hp' & Hin).
      rewrite (inv_lock s HI t' p Hp' (in_body_holds_lock p Hin)). reflexivity.
  - intros t f Hcr Hp. rewrite (step_AddAppend o t s f Hcr Hp).
    eexists. split; [reflexivity |]. split; [reflexivity |].
    destruct s; simpl in *. eapply lookup_insert_self. exact Hp.
  - intros t Hcr Hp. rewrite (step_AddUnlock o t s Hcr Hp).
    eexists. split; [reflexivity |]. split; [reflexivity |].
    destruct s; simpl in *. eapply lookup_insert_self. exact Hp.
  - intros Hd sched'. apply run_after_done; assumption.
Qed.

(** While a shutdown function hangs, [Stop] waits holding the mutex and a
    registration waits for the mutex. *)
Lemma blocked_step o t s s' c f g :
  behaviour o g c = Hangs -> no_panic o ->
  step o t s = Some s' ->
  Inv s /\ sound s /\ threads s !! 2 = Some (StWait c)
  /\ threads s !! 3 = Some (AddLock f) /\ threads s !! 5 = Some (PtRun g c) ->
  Inv s' /\ sound s' /\ threads s' !! 2 = Some (StWait c)
  /\ threads s' !! 3 = Some (AddLock f) /\ threads s' !! 5 = Some (PtRun g c).
Proof.
  intros Hh Hn H (HI & Hs & H2 & H3 & H5).
  assert (Hcr : crashed s = false) by apply Hs.
  split; [eapply inv_step; eassumption |].
  split; [eapply sound_step; eassumption |].
  assert (t <> 2).
  { intros ->. unfold step in H. rewrite Hcr, H2 in H. simpl in H.
    pose proof (inv_wg s HI) as Hwg.
    pose proof (total_lookup_le wg_pending _ _ _ H5) as Hle. simpl in Hle.
    destruct (wg s); [lia | discriminate H]. }
  assert (t <> 3).
  { intros ->. rewrite (step_AddLock o 3 s f Hcr H3) in H.
    rewrite (inv_lock s HI 2 _ H2 eq_refl) in H. discriminate H. }
  assert (t <> 5).
  { intros ->. unfold step in H. rewrite Hcr, H5 in H. simpl in H.
    rewrite Hh in H. discriminate H. }
  repeat split; eapply step_other; eauto.
Qed.

Lemma blocked_run o sched s c f g :
  behaviour o g c = Hangs -> no_panic o ->
  Inv s /\ sound s /\ threads s !! 2 = Some (StWait c)
  /\ threads s !! 3 = Some (AddLock f) /\ threads s !! 5 = Some (PtRun g c) ->
  threads (run o sched s) !! 3 = Some (AddLock f)
  /\ step o 3 (run o sched s) = None.
Proof.
  intros Hh Hn. revert s. induction sched as [| t sched IH]; intros s Q; simpl.
  - destruct Q as (HI & Hs & H2 & H3 & H5). split; [exact H3 |].
    rewrite (step_AddLock o 3 s f (proj1 Hs) H3).
    rewrite (inv_lock s HI 2 _ H2 eq_refl). reflexivity.
  - destruct (step o t s) as [s' |] eqn:E; simpl; [| apply IH; exact Q].
    apply IH. eapply blocked_step; eassumption.
Qed.

End Registration.

Lemma addShutdownFunc_waits_for_the_mutex_witness :
  let s := run calm (round_robin 8 2)
             (with_callers [AddLock 7; StLock ctx10; AddLock 8]
                (fresh_state AlServe)) in
  (forall t f,
     crashed s = false -> threads s !! t = Some (AddLock f) ->
     (step calm t s = None <-> shutdownFuncsM s <> None)
     /\ ((exists t' p, threads s !! t' = Some p /\ in_body p = true) ->
         step calm t s = None))
  /\ (forall t f,
        crashed s = false -> threads s !! t = Some (AddAppend f) ->
        exists s', step calm t s = Some s'
                   /\ shutdownFuncs s' = (shutdownFuncs s ++ [f])%list
                   /\ threads s' !! t = Some AddUnlock)
  /\ (forall t,
        crashed s = false -> threads s !! t = Some AddUnlock ->
        exists s', step calm t s = Some s'
                   /\ shutdownFuncsM s' = None
                   /\ threads s' !! t = Some AddReturned)
  /\ (shutdownOnce s = OnceDone ->
      forall sched', coord (trace (run calm sched' s)) = coord (trace s)).
Proof.
  apply (addShutdownFunc_waits_for_the_mutex calm AlServe
           [AddLock 7; StLock ctx10; AddLock 8] (round_robin 8 2)).
  - left. reflexivity.
  - reflexivity.
Defined.

(** C7 as stated fails: with a call of [Stop] waiting for a shutdown function
    that does not return, a call of [addShutdownFunc] cannot take a step,
    now or after any further scheduling. *)
Lemma addShutdownFunc_blocks_during_Stop :
  let s := run (hanging 7)
             ([1; 1; 1] ++ replicate 10 2 ++ [5; 5; 4; 4; 0; 0; 3; 2])
             (with_callers [AddLock 7; StLock ctx10; AddLock 8]
                (fresh_state AlServe)) in
  crashed s = false
  /\ threads s !! 2%nat = Some (StWait ctx10)
  /\ threads s !! 3%nat = Some (AddLock 8)
  /\ shutdownFuncsM s = Some 2%nat
  /\ step (hanging 7) 3 s = None
  /\ forall sched',
       threads (run (hanging 7) sched' s) !! 3%nat = Some (AddLock 8)
       /\ step (hanging 7) 3 (run (hanging 7) sched' s) = None.
Proof.
  cbv zeta. repeat (split; [reflexivity |]).
  intros sched'. apply (blocked_run (hanging 7) sched' _ ctx10 8%nat 7%nat).
  - reflexivity.
  - split; [reflexivity |]. intros f c. simpl. destruct (Nat.eqb f 7); discriminate.
  - split; [apply inv_run, inv_init; [left |]; reflexivity |].
    split; [| repeat split].
    apply sound_run; [apply inv_init; [left |]; reflexivity | | apply sound_init; [left |]; reflexivity].
    split; [reflexivity |]. intros f c. simpl. destruct (Nat.eqb f 7); discriminate.
Qed.

(** ** The drain goroutine and the accept loop *)

Section Escalation.
Local Open Scope nat_scope.

Lemma step_at o t s p :
  crashed s = false -> threads s !! t = Some p -> step o t s = step_pc o t s p.
Proof. intros Hcr Hp. unfold step. rewrite Hcr, Hp. reflexivity. Qed.

(* one more step of goroutine [t], whose statement is known *)
Ltac own_step t :=
  match goal with
  | |- context [step ?o t ?s] =>
      rewrite (step_at o t s _ eq_refl
                 ltac:(simpl;
                       first [ eassumption
                             | apply list_lookup_insert_eq;
                               rewrite ?length_insert; assumption ]));
      simpl
  end.

(** The goroutine draining the HTTP server, run on its own from the call of
    [Shutdown] on. *)
Lemma drain_steps o s t c e1 :
  crashed s = false -> threads s !! t = Some (DrShutdown c) ->
  shutdown_result o c = Some e1 ->
  let forced := run o [t; t; t] s in
  trace forced
  = (trace s ++ [EvSrvShutdown c;
                 EvLog DebugSeverity msgGracefulFailed;
                 EvSrvClose])%list
  /\ crashed forced = false
  /\ threads forced !! t
     = Some (match close_result o with
             | None => BrDone
             | Some e2 => DrLogCritical c e2
             end).
Proof.
  intros Hcr Hp Hfail.
  assert (Hlt : t < length (threads s)) by (eapply lookup_lt_Some; eauto).
  destruct s as [cl on fs m w ths tr cr]; simpl in *; subst cr.
  unfold run; simpl.
  own_step t. rewrite Hfail. simpl.
  own_step t. own_step t.
  destruct (close_result o) as [e2 |]; simpl; rewrite <- !app_assoc; simpl;
    (split; [reflexivity |]; split; [reflexivity |]);
    apply list_lookup_insert_eq; rewrite ?length_insert; assumption.
Qed.

Lemma drain_panics o s t c e2 :
  crashed s = false -> threads s !! t = Some (DrLogCritical c e2) ->
  let fatal := run o [t; t; t; t] s in
  trace fatal
  = (trace s ++ [EvLog CriticalSeverity msgForcefulFailed;
                 EvPanic e2])%list
  /\ crashed fatal = true.
Proof.
  intros Hcr Hp.
  assert (Hlt : t < length (threads s)) by (eapply lookup_lt_Some; eauto).
  destruct s as [cl on fs m w ths tr cr]; simpl in *; subst cr.
  unfold run; simpl.
  own_step t. own_step t. own_step t. unfold wg_Done; simpl.
  destruct w; simpl; own_step t; rewrite <- !app_assoc; split; reflexivity.
Qed.

(** C3: when the drain of the HTTP server returns an error the coordinator
    logs it and, as its next action, calls the forced close; when the forced
    close fails too, it logs at the highest severity and panics, which takes
    the process down: nothing runs after that. *)
Theorem drain_failure_escalates
    (o : Oracle) (s : State) (t : nat) (c : Ctx) (e1 : Err)
    (Hcr : crashed s = false)
    (Hp : threads s !! t = Some (DrShutdown c))
    (Hfail : shutdown_result o c = Some e1) :
  let forced := run o [t; t; t] s in
  trace forced
  = (trace s ++ [EvSrvShutdown c;
                 EvLog DebugSeverity msgGracefulFailed;
                 EvSrvClose])%list
  /\ crashed forced = false
  /\ (close_result o = None -> threads forced !! t = Some BrDone)
  /\ (forall e2, close_result o = Some e2 ->
        let fatal := run o [t; t; t; t] forced in
        trace fatal
        = (trace forced
             ++ [EvLog CriticalSeverity msgForcefulFailed;
                 EvPanic e2])%list
        /\ crashed fatal = true
        /\ forall t' sched, step o t' fatal = None /\ run o sched fatal = fatal)
  /\ (forall v, severity_rank v <= severity_rank CriticalSeverity).
Proof.
  intros forced.
  destruct (drain_steps o s t c e1 Hcr Hp Hfail) as (Htr & Hcr' & Hpc).
  fold forced in Htr, Hcr', Hpc.
  split; [exact Htr |]. split; [exact Hcr' |]. split; [| split].
  - intros E. rewrite E in Hpc. exact Hpc.
  - intros e2 E fatal. rewrite E in Hpc.
    destruct (drain_panics o forced t c e2 Hcr' Hpc) as (Htr2 & Hcr2).
    fold fatal in Htr2, Hcr2.
    split; [exact Htr2 |]. split; [exact Hcr2 |].
    intros t' sched. split; [apply crashed_stuck | apply run_crashed]; exact Hcr2.
  - intros []; simpl; lia.
Qed.







End Escalation.

Section AcceptLoop.
Context {World ReqData RspData : Type}.
Local Abbreviation Service := (@Pipeline.Service World ReqData RspData nat).
Local Open Scope nat_scope.


End AcceptLoop.


Lemma drain_failure_escalates_witness :
  let s := run broken (replicate 6 1%nat)
             (with_callers [StLock ctx10] (fresh_state AlServe)) in
  let forced := run broken [2; 2; 2]%nat s in
  trace forced
  = (trace s ++ [EvSrvShutdown ctx10;
                 EvLog DebugSeverity msgGracefulFailed;
                 EvSrvClose])%list
  /\ crashed forced = false
  /\ (close_result broken = None -> threads forced !! 2%nat = Some BrDone)
  /\ (forall e2, close_result broken = Some e2 ->
        let fatal := run broken [2; 2; 2; 2]%nat forced in
        trace fatal
        = (trace forced
             ++ [EvLog CriticalSeverity msgForcefulFailed;
                 EvPanic e2])%list
        /\ crashed fatal = true
        /\ forall t' sched, step broken t' fatal = None /\ run broken sched fatal = fatal)
  /\ (forall v, (severity_rank v <= severity_rank CriticalSeverity)%nat).
Proof.
  apply (drain_failure_escalates broken
           (run broken (replicate 6 1%nat)
              (with_callers [StLock ctx10] (fresh_state AlServe)))
           2%nat ctx10 "context deadline exceeded");
    reflexivity.
Defined.

Example drain_of_a_broken_server :
  trace (run broken (replicate 6 1 ++ replicate 7 2)%nat
           (with_callers [StLock ctx10] (fresh_state AlServe)))
  = [EvChanClose; EvGoDrain ctx10; EvSrvShutdown ctx10;
     EvLog DebugSeverity msgGracefulFailed;
     EvSrvClose;
     EvLog CriticalSeverity msgForcefulFailed;
     EvPanic "close tcp: bad file descriptor"]
  /\ crashed (run broken (replicate 6 1 ++ replicate 7 2)%nat
                (with_callers [StLock ctx10] (fresh_state AlServe))) = true.
Proof. split; reflexivity. Qed.


Example accept_loop_error_run :
  let st := run broken (round_robin 4 12)
              (with_callers [] (fresh_state AlServe)) in
  threads st = [StLoop (cancel Background) []; DrClose (cancel Background)]
  /\ trace st
     = [EvLog ErrorSeverity msgServeError; EvChanClose;
        EvGoDrain (cancel Background); EvSrvShutdown (cancel Background);
        EvLog DebugSeverity msgGracefulFailed].
Proof. split; reflexivity. Qed.

Example accept_loop_closed_run :
  let st := run calm (round_robin 4 12)
              (with_callers [] (fresh_state AlServe)) in
  threads st = [AlExit] /\ trace st = [].
Proof. split; reflexivity. Qed.

(** ** Listener addresses and TLS defaults *)

Section Binding.

Lemma Listen_addr_explicit (env : gmap string string) (addr : string) :
  addr <> "" -> Net.Listen_addr env addr = addr.
Proof.
  intros H. unfold Net.Listen_addr.
  destruct (String.eqb addr "") eqn:E; [| reflexivity].
  apply String.eqb_eq in E. contradiction.
Qed.

Lemma Listen_addr_env (env : gmap string string) :
  Net.Getenv env "LISTEN_ADDR" <> "" ->
  Net.Listen_addr env "" = Net.Getenv env "LISTEN_ADDR".
Proof.
  intros H. unfold Net.Listen_addr. simpl.
  destruct (String.eqb (Net.Getenv env "LISTEN_ADDR") "") eqn:E; [| reflexivity].
  apply String.eqb_eq in E. contradiction.
Qed.

Lemma Listen_addr_port (env : gmap string string) (port : Z) :
  Net.Getenv env "LISTEN_ADDR" = "" ->
  Strconv.Atoi (Net.Getenv env "PORT") = Some port -> (0 <= port)%Z ->
  Net.Listen_addr env "" = ":" +:+ Strconv.fmt_d port.
Proof.
  intros H1 H2 H3. unfold Net.Listen_addr. simpl. rewrite H1, H2. simpl.
  destruct (Z.leb_spec 0 port); [reflexivity | lia].
Qed.

Lemma Listen_addr_fallback (env : gmap string string) :
  Net.Getenv env "LISTEN_ADDR" = "" ->
  (forall port, Strconv.Atoi (Net.Getenv env "PORT") = Some port -> (port < 0)%Z) ->
  Net.Listen_addr env "" = ":0".
Proof.
  intros H1 H2. unfold Net.Listen_addr. simpl. rewrite H1. simpl.
  destruct (Strconv.Atoi (Net.Getenv env "PORT")) as [port |] eqn:E; [| reflexivity].
  specialize (H2 port eq_refl). destruct (Z.leb_spec 0 port); [lia | reflexivity].
Qed.

Example Atoi_samples :
  Strconv.Atoi "8080" = Some 8080%Z /\ Strconv.Atoi "+80" = Some 80%Z
  /\ Strconv.Atoi "-1" = Some (-1)%Z /\ Strconv.Atoi "" = None
  /\ Strconv.Atoi "80a" = None /\ Strconv.Atoi "-" = None
  /\ Strconv.Atoi "9223372036854775808" = None.
Proof. repeat split. Qed.

Example Listen_addr_samples :
  let env : gmap string string :=
    <["LISTEN_ADDR" := "10.0.0.1:80"]> (<["PORT" := "8080"]> ∅) in
  Net.Listen_addr env "127.0.0.1:9000" = "127.0.0.1:9000"
  /\ Net.Listen_addr env "" = "10.0.0.1:80"
  /\ Net.Listen_addr (<["PORT" := "8080"]> ∅) "" = ":8080"
  /\ Net.Listen_addr (<["PORT" := "http"]> ∅) "" = ":0".
Proof. repeat split. Qed.

(** C6, the fallback: with no address given and neither LISTEN_ADDR nor PORT
    set, [Listen] binds ":0", the very address PORT=0 gives: no host, hence
    every interface, not the loopback interface that the comment in [Listen]
    promises. The three rules before the fallback are
    [Listen_addr_explicit], [Listen_addr_env] and [Listen_addr_port]. *)
Theorem Listen_fallback_binds_all_interfaces :
  Net.Listen_addr ∅ "" = ":0"
  /\ Net.Listen_addr ∅ "" = Net.Listen_addr (<["PORT" := "0"]> ∅) ""
  /\ Net.ResolveTCPAddr (Net.Listen_addr ∅ "") = inl {| Net.IP := ""; Net.Port := "0" |}
  /\ Net.all_interfaces {| Net.IP := ""; Net.Port := "0" |} = true
  /\ Net.loopback_only {| Net.IP := ""; Net.Port := "0" |} = false.
Proof. repeat split. Qed.

Lemma ListenUnix_path_explicit (env : gmap string string) (path : string) :
  path <> "" -> Net.ListenUnix_path env path = path.
Proof.
  intros H. unfold Net.ListenUnix_path.
  destruct (String.eqb path "") eqn:E; [| reflexivity].
  apply String.eqb_eq in E. contradiction.
Qed.

Lemma ListenUnix_path_env (env : gmap string string) :
  Net.Getenv env "LISTEN_PATH" <> "" ->
  Net.ListenUnix_path env "" = Net.Getenv env "LISTEN_PATH".
Proof.
  intros H. unfold Net.ListenUnix_path. simpl.
  destruct (String.eqb (Net.Getenv env "LISTEN_PATH") "") eqn:E; [| reflexivity].
  apply String.eqb_eq in E. contradiction.
Qed.

Lemma ListenUnix_path_fallback (env : gmap string string) :
  Net.Getenv env "LISTEN_PATH" = "" ->
  Net.ListenUnix_path env "" = Net.TempDir env.
Proof. intros H. unfold Net.ListenUnix_path. simpl. rewrite H. reflexivity. Qed.

Lemma string_length_app (s1 s2 : string) :
  String.length (s1 +:+ s2) = (String.length s1 + String.length s2)%nat.
Proof. induction s1 as [| c s1 IH]; simpl; [reflexivity | rewrite IH; reflexivity]. Qed.

Lemma not_under_itself (dir : string) : ~ Net.under_dir dir dir.
Proof.
  intros (name & Hne & E). apply Hne.
  apply (f_equal String.length) in E. rewrite string_length_app in E.
  destruct name; [reflexivity | simpl in E; lia].
Qed.

(** C8, the fallback: with no path given and LISTEN_PATH not set,
    [ListenUnix] takes the temporary directory itself as the socket path,
    not a path inside it. The two rules before the fallback are
    [ListenUnix_path_explicit] and [ListenUnix_path_env]. *)
Theorem ListenUnix_fallback_is_the_temp_dir :
  Net.TempDir ∅ = "/tmp"
  /\ Net.ListenUnix_path ∅ "" = "/tmp"
  /\ ~ Net.under_dir (Net.TempDir ∅) (Net.ListenUnix_path ∅ "")
  /\ forall env : gmap string string,
       Net.ListenUnix_path (delete "LISTEN_PATH" env) ""
       = Net.TempDir (delete "LISTEN_PATH" env)
       /\ ~ Net.under_dir (Net.TempDir (delete "LISTEN_PATH" env))
            (Net.ListenUnix_path (delete "LISTEN_PATH" env) "").
Proof.
  split; [reflexivity |]. split; [reflexivity |].
  split; [apply not_under_itself |].
  intros env.
  assert (E : Net.ListenUnix_path (delete "LISTEN_PATH" env) ""
              = Net.TempDir (delete "LISTEN_PATH" env)).
  { apply ListenUnix_path_fallback. unfold Net.Getenv.
    rewrite lookup_delete_eq. reflexivity. }
  split; [exact E |]. rewrite E. apply not_under_itself.
Qed.

End Binding.

Section TLSDefaults.
Context {World ReqData RspData : Type}.
Local Abbreviation Service := (@Pipeline.Service World ReqData RspData nat).

(** C9: [ServeTLS] called with a nil configuration builds the server with
    the default one: TLS 1.2 as the minimum version, the server's order of
    cipher suites preferred, the curves P-521, P-384, P-256, and the four
    listed AES-256 suites; with a configuration given, that configuration is
    used as it is; in both cases [TLSNextProto] is an empty, non-nil map;
    [ListenTLS] and [ListenUnixTLS] hand their configuration to [ServeTLS]. *)
Theorem ServeTLS_default_config
    (os : Net.OS) (env : gmap string string) (s0 : nat) (svc : Service)
    (l : Net.Listener) (addr path certFile keyFile : string) :
  let sv := fst (ServeTLS s0 svc l certFile keyFile None) in
  TLSConfig (srv sv) = Some TLS.default_config
  /\ TLS.MinVersion TLS.default_config = TLS.VersionTLS12
  /\ TLS.VersionTLS12 = 0x0303%Z
  /\ TLS.PreferServerCipherSuites TLS.default_config = true
  /\ TLS.CurvePreferences TLS.default_config
     = [TLS.CurveP521; TLS.CurveP384; TLS.CurveP256]
  /\ TLS.CipherSuites TLS.default_config
     = [TLS.TLS_ECDHE_RSA_WITH_AES_256_GCM_SHA384;
        TLS.TLS_ECDHE_RSA_WITH_AES_256_CBC_SHA;
        TLS.TLS_RSA_WITH_AES_256_GCM_SHA384;
        TLS.TLS_RSA_WITH_AES_256_CBC_SHA]
  /\ TLSNextProto (srv sv) = Some ∅
  /\ (forall cfg : TLS.Config,
        let sv' := fst (ServeTLS s0 svc l certFile keyFile (Some cfg)) in
        TLSConfig (srv sv') = Some cfg /\ TLSNextProto (srv sv') = Some ∅)
  /\ (forall cfg : option TLS.Config,
        match fst (ListenTLS os env s0 svc addr certFile keyFile cfg) with
        | Some sv' =>
            TLSConfig (srv sv') = Some (default TLS.default_config cfg)
            /\ TLSNextProto (srv sv') = Some ∅
        | None => True
        end)
  /\ (forall cfg : option TLS.Config,
        match fst (fst (ListenUnixTLS os env s0 svc path certFile keyFile cfg)) with
        | Some sv' =>
            TLSConfig (srv sv') = Some (default TLS.default_config cfg)
            /\ TLSNextProto (srv sv') = Some ∅
        | None => True
        end).
Proof.
  cbv zeta. repeat (split; [reflexivity |]). split; [| split].
  - intros cfg. split; reflexivity.
  - intros cfg. unfold ListenTLS.
    destruct (Net.ResolveTCPAddr _) as [a | e]; [| exact I].
    destruct (Net.ListenTCP os a) as [l' | e]; [| exact I].
    destruct cfg; split; reflexivity.
  - intros cfg. unfold ListenUnixTLS.
    destruct (Net.ListenUnix os _) as [l' | e]; [| exact I].
    destruct cfg; split; reflexivity.
Qed.

Example Serve_has_no_TLS (s0 : nat) (svc : Service) (l : Net.Listener) :
  TLSConfig (srv (fst (Serve s0 svc l))) = None
  /\ TLSNextProto (srv (fst (Serve s0 svc l))) = None
  /\ MaxHeaderBytes (srv (fst (Serve s0 svc l))) = 1048576%Z.
Proof. repeat split. Qed.

End TLSDefaults.
